(** * DiffTreeModel: path tree, tri-state aggregation and change propagation

    A shallow embedding of [src/ui/DiffTreeModel.cpp] (Gittyup).  The C++
    class keeps a tree of heap nodes linked by parent pointers, a handle on
    the current diff and emits Qt signals.  Here

    - a [Node] is its name and the ordered list of its children;
    - a node pointer is the position of the node in the tree (the rows
      walked from the node up to the root), so that [Node::parent] drops the
      first row and the root pointer is the empty position;
    - a method that dereferences a null or dangling pointer, or indexes a
      [QStringList] out of range, aborts: it returns [None];
    - signals are collected, in emission order, in a list. *)

From Stdlib Require Import String Ascii List ZArith Bool Arith Lia.
From Equations Require Import Equations.
From Equations.Prop Require Import Logic.
Import ListNotations.

Open Scope string_scope.
Open Scope list_scope.

(** ** Aborting computations *)

Definition bind {A B : Type} (c : option A) (k : A -> option B) : option B :=
  match c with
  | Some a => k a
  | None => None
  end.

Notation "'do' x <- c ; k" := (bind c (fun x => k))
  (at level 10, x pattern, c at level 100, k at level 200).

(** ** The part of QString the model uses *)

Module QString.

(** [QString::split("/")] with the default [KeepEmptyParts]: the result
    is never empty, the empty string splits into one empty part. *)
Fixpoint split (sep : ascii) (s : string) : list string :=
  match s with
  | EmptyString => [EmptyString]
  | String c rest =>
      if Ascii.eqb c sep then EmptyString :: split sep rest
      else match split sep rest with
           | [] => [String c EmptyString]
           | w :: ws => String c w :: ws
           end
  end.

(** [s.startsWith(p)]: plain, character-wise prefix test. *)
Definition startsWith (s p : string) : bool := String.prefix p s.

(** [s.contains(ch)] *)
Fixpoint contains (s : string) (ch : ascii) : bool :=
  match s with
  | EmptyString => false
  | String c rest => Ascii.eqb c ch || contains rest ch
  end.

(** [s.append(ch)] *)
Definition append (s : string) (ch : ascii) : string :=
  (s ++ String ch EmptyString)%string.

(** Joining names with a separator, the way a path is written. *)
Definition join (sep : string) (parts : list string) : string :=
  String.concat sep parts.

End QString.

(** ** DiffTreeModel::Node *)

Module Node.

(** [mName] and [mChildren]; [mParent] is implicit in the position. *)
#[warnings="-register-all"]
Inductive t : Type :=
| mk (mName : string) (mChildren : list t).

Definition name (n : t) : string := let 'mk nm _ := n in nm.
Definition children (n : t) : list t := let 'mk _ cs := n in cs.

Definition hasChildren (n : t) : bool := Nat.ltb 0 (length (children n)).

(** A pointer to a node: the rows from the node up to the root, nearest
    first.  [[]] points at the root; [r :: up] points at child [r] of the
    node [up] points at. *)
Definition ptr : Type := list nat.

(** [Node::parent()]: [None] is the null pointer. *)
Definition parent (p : ptr) : option ptr :=
  match p with
  | [] => None
  | _ :: up => Some up
  end.

(** Walking down from a node along rows given root first. *)
Fixpoint descend (n : t) (rows : list nat) : option t :=
  match rows with
  | [] => Some n
  | r :: rows' =>
      match nth_error (children n) r with
      | Some c => descend c rows'
      | None => None
      end
  end.

(** Dereferencing a pointer in the tree rooted at [root]. *)
Definition deref (root : t) (p : ptr) : option t := descend root (rev p).

(** [Node::path(relative)]:
<<
    bool root = (!mParent || (relative && !mParent->mParent));
    return !root ? mParent->path(relative) % "/" % mName : mName;
>> *)
Fixpoint path (root : t) (relative : bool) (p : ptr) {struct p} : option string :=
  do n <- deref root p;
  match p with
  | [] => Some (name n)
  | _ :: up =>
      if relative && (match up with [] => true | _ => false end)
      then Some (name n)
      else do pp <- path root relative up; Some (pp ++ "/" ++ name n)%string
  end.

(** The loop of [addChild] over [mChildren]: the first child accepted by
    [hit] is replaced by what [f] makes of it (the recursive call mutates
    it in place), and the loop returns from the method.  [None] when the
    loop runs to its end without a match. *)
Fixpoint visit_first (hit : t -> bool) (f : t -> option t) (cs : list t)
  : option (option (list t)) :=
  match cs with
  | [] => None
  | c :: cs' =>
      if hit c then Some (do c' <- f c; Some (c' :: cs'))
      else match visit_first hit f cs' with
           | Some r => Some (do cs'' <- r; Some (c :: cs''))
           | None => None
           end
  end.

(** [Node::addChild(pathPart, indexFirstDifferent)], on the parts from
    [indexFirstDifferent] on ([addChild] below takes the index).  Every
    call reads [pathPart[indexFirstDifferent]], in the comparison with the
    first child or in the constructor call, so an index past the end
    aborts. *)
Fixpoint addChildFrom (parts : list string) (this : t) {struct parts} : option t :=
  match parts with
  | [] => None
  | seg :: rest =>
      match visit_first (fun c => String.eqb (name c) seg)
                        (addChildFrom rest) (children this) with
      | Some r => do cs <- r; Some (mk (name this) cs)
      | None =>
          let n := mk seg [] in
          do n' <- (if Nat.ltb 0 (length rest) then addChildFrom rest n else Some n);
          Some (mk (name this) (children this ++ [n']))
      end
  end.

Definition addChild (pathPart : list string) (indexFirstDifferent : nat)
           (this : t) : option t :=
  addChildFrom (skipn indexFirstDifferent pathPart) this.

End Node.

(** ** Collaborators: the staging index and the diff *)

(** [git::Index::StagedState] *)
Inductive StagedState : Type :=
| Disabled | Unstaged | PartiallyStaged | Staged | Conflicted.

(** [Qt::CheckState] *)
Inductive CheckState : Type :=
| Unchecked | PartiallyChecked | Checked.

(** Modelled from the spec: [git::Index] ([src/git/Index.h] and its
    implementation are not part of the sources at hand).  The spec gives
    the staging index two operations: [statusOf(path)], called [isStaged]
    in the code, and [setStaged(paths, staged)] with a success or failure
    result.  The index is any type with these two operations; [setStaged]
    returns the index it leaves behind and whether it succeeded. *)
Class StagingBridge (Idx : Type) : Type := {
  isStaged : Idx -> string -> StagedState;
  setStaged : Idx -> list string -> bool -> Idx * bool
}.

(** Modelled from the spec: [git::Diff] ([src/git/Diff.h] is not part of
    the sources at hand).  The spec gives the change-set an ordered
    enumeration [count()], [name(i)], [status(i)], a validity flag and a
    "supports staging" flag; [index()] hands out the staging index. *)
Record Diff (Idx : Type) : Type := mkDiff {
  isValid : bool;
  isStatusDiff : bool;
  entries : list (string * Z);
  index_ : Idx
}.
Arguments mkDiff {Idx}.
Arguments isValid {Idx}.
Arguments isStatusDiff {Idx}.
Arguments entries {Idx}.
Arguments index_ {Idx}.

(** The paths [name(0)], ..., [name(count() - 1)]. *)
Definition names {Idx : Type} (d : Diff Idx) : list string :=
  map fst (entries d).

(** ** Model indexes, roles, variants and signals *)

(** A [QModelIndex] is invalid ([None]) or carries the pointer of its node;
    its row is the first row of the pointer and its column is 0. *)
Definition QModelIndex : Type := option Node.ptr.

Inductive Role : Type :=
| DisplayRole | EditRole | ToolTipRole | CheckStateRole
| KindRole | AddedRole | ModifiedRole | StatusRole
| OtherRole (r : Z).

(** What [data] returns: an invalid variant, a string or a check state. *)
Inductive QVariant : Type :=
| QInvalid
| QStr (s : string)
| QCheck (c : CheckState).

Inductive Signal : Type :=
| modelAboutToBeReset
| modelReset
| dataChanged (topLeft bottomRight : QModelIndex) (roles : list Role)
| checkStateChanged (index : QModelIndex) (state : Z).

(** The value of a toggle is an integer variant: [toInt] is the integer,
    [toBool] is whether it is not zero. *)
Definition toBool (value : Z) : bool := negb (value =? 0)%Z.
Definition toInt (value : Z) : Z := value.

(** ** DiffTreeModel *)

Section DiffTreeModel.

Context {Idx : Type} {bridge : StagingBridge Idx}.

(** [git::Diff::statusChar], [containsPath] (declared in a header that is
    not part of the sources at hand) and the answers of the settings, the
    submodule lookup and the history walk for [KindRole], [AddedRole] and
    [ModifiedRole], given the node's relative path and name. *)
Variable statusChar : Z -> ascii.
Variable containsPath : string -> string -> bool.
Variable repoQuery : Role -> string -> string -> QVariant.

Record Model : Type := mkModel {
  mRepo : string;              (* mRepo.workdir().path() *)
  mDiff : Diff Idx;
  mRoot : option Node.t        (* None: the null pointer *)
}.

(** [mRoot->addChild(pathParts, 0)] for every entry of the diff. *)
Fixpoint createDiffTreeLoop (paths : list string) (root : Node.t) : option Node.t :=
  match paths with
  | [] => Some root
  | path :: rest =>
      let pathParts := QString.split "/" path in
      do root' <- Node.addChild pathParts 0 root;
      createDiffTreeLoop rest root'
  end.

Definition createDiffTree (m : Model) : option Model :=
  do root <- mRoot m;
  do root' <- createDiffTreeLoop (names (mDiff m)) root;
  Some (mkModel (mRepo m) (mDiff m) (Some root')).

Definition setDiff (m : Model) (diff : Diff Idx) : option (Model * list Signal) :=
  do m' <- (if isValid diff
            then createDiffTree (mkModel (mRepo m) diff (Some (Node.mk (mRepo m) [])))
            else Some m);
  Some (m', [modelAboutToBeReset; modelReset]).

(** [node(index)]: the pointer of a valid index, [mRoot] otherwise.  All
    callers dereference the result, so a null [mRoot] aborts here. *)
Definition node (m : Model) (index : QModelIndex) : option Node.ptr :=
  match index with
  | Some p => Some p
  | None => match mRoot m with Some _ => Some [] | None => None end
  end.

(** The node behind a pointer. *)
Definition at_ptr (m : Model) (p : Node.ptr) : option Node.t :=
  do root <- mRoot m; Node.deref root p.

Definition rowCount (m : Model) (parent : QModelIndex) : option nat :=
  if isValid (mDiff m)
  then do p <- node m parent; do n <- at_ptr m p; Some (length (Node.children n))
  else Some 0.

Definition columnCount (m : Model) (parent : QModelIndex) : Z := 1.

Definition hasChildren (m : Model) (parent : QModelIndex) : option bool :=
  match mRoot m with
  | None => Some false
  | Some _ => do p <- node m parent; do n <- at_ptr m p; Some (Node.hasChildren n)
  end.

Definition parent (m : Model) (index : QModelIndex) : option QModelIndex :=
  do p <- node m index;
  do _ <- at_ptr m p;
  match Node.parent p with
  | None => Some None
  | Some [] => Some None                      (* parent == mRoot *)
  | Some par => Some (Some par)
  end.

Definition index (m : Model) (row column : Z) (parent : QModelIndex)
  : option QModelIndex :=
  do count <- rowCount m parent;
  if ((row <? 0) || (row >=? Z.of_nat count) ||
      (column <? 0) || (column >=? columnCount m parent))%Z
  then Some None
  else do p <- node m parent;
       do n <- at_ptr m p;
       do _ <- nth_error (Node.children n) (Z.to_nat row);
       Some (Some (Z.to_nat row :: p)).

(** The collecting loop at the head of both [CheckStateRole] cases. *)
Definition startingWith (d : Diff Idx) (prefix : string) : list string :=
  filter (fun path => QString.startsWith path prefix) (names d).

(** The [foreach] over the collected paths: [inl] is the early
    [return Qt::PartiallyChecked], [inr] the count at the end. *)
Fixpoint countStaged (ix : Idx) (paths : list string) (count : Z) : CheckState + Z :=
  match paths with
  | [] => inr count
  | path :: rest =>
      match isStaged ix path with
      | Disabled | Unstaged | Conflicted => countStaged ix rest count
      | PartiallyStaged => inl PartiallyChecked
      | Staged => countStaged ix rest (count + 1)%Z
      end
  end.

Definition checkState (d : Diff Idx) (prefix : string) : QVariant :=
  let paths := startingWith d prefix in
  match paths with
  | [] => QInvalid
  | _ =>
      match countStaged (index_ d) paths 0 with
      | inl c => QCheck c
      | inr count =>
          if (count =? 0)%Z then QCheck Unchecked
          else if (count =? Z.of_nat (length paths))%Z then QCheck Checked
          else QCheck PartiallyChecked
      end
  end.

(** The loop of the [StatusRole] case. *)
Fixpoint statusLoop (es : list (string * Z)) (prefix status : string) : string :=
  match es with
  | [] => status
  | (name, st) :: rest =>
      if containsPath name prefix
      then let ch := statusChar st in
           if negb (QString.contains status ch)
           then statusLoop rest prefix (QString.append status ch)
           else statusLoop rest prefix status
      else statusLoop rest prefix status
  end.

(** [data]: [node] is only dereferenced by the cases that read it, after
    their guards on the diff. *)
Definition data (m : Model) (index : QModelIndex) (role : Role) : option QVariant :=
  match index with
  | None => Some QInvalid
  | Some p =>
      match role with
      | DisplayRole => do n <- at_ptr m p; Some (QStr (Node.name n))
      | EditRole =>
          do root <- mRoot m; do s <- Node.path root true p; Some (QStr s)
      | ToolTipRole =>
          do root <- mRoot m; do s <- Node.path root false p; Some (QStr s)
      | CheckStateRole =>
          if negb (isValid (mDiff m)) || negb (isStatusDiff (mDiff m))
          then Some QInvalid
          else do root <- mRoot m;
               do prefix <- Node.path root true p;
               Some (checkState (mDiff m) prefix)
      | KindRole | AddedRole | ModifiedRole =>
          do root <- mRoot m;
          do s <- Node.path root true p;
          do n <- Node.deref root p;
          Some (repoQuery role s (Node.name n))
      | StatusRole =>
          if negb (isValid (mDiff m)) then Some (QStr "")
          else do root <- mRoot m;
               do prefix <- Node.path root true p;
               Some (QStr (statusLoop (entries (mDiff m)) prefix ""))
      | OtherRole _ => Some QInvalid
      end
  end.

(** [mDiff.index().setStaged(files, staged)]: the index is shared with
    the diff, so the diff sees what the call leaves behind; the result of
    the call is dropped. *)
Definition callSetStaged (m : Model) (files : list string) (staged : bool) : Model :=
  let d := mDiff m in
  let ix := fst (setStaged (index_ d) files staged) in
  mkModel (mRepo m) (mkDiff (isValid d) (isStatusDiff d) (entries d) ix) (mRoot m).

(** The loop over the rows of [index] in [setData]:
<<
    for (int row = 0; row < count; row++) {
      QModelIndex child = this->index(row, 0, index);
      emit dataChanged(child, child, {role});
    }
>> *)
Fixpoint notifyChildren (m : Model) (role : Role) (idx : QModelIndex)
         (rows : list nat) : option (list Signal) :=
  match rows with
  | [] => Some []
  | row :: rest =>
      do child <- index m (Z.of_nat row) 0 idx;
      do sigs <- notifyChildren m role idx rest;
      Some (dataChanged child child [role] :: sigs)
  end.

(** The measure of the [while] loop over the parents. *)
Definition depth (idx : QModelIndex) : nat :=
  match idx with
  | None => 0
  | Some p => S (length p)
  end.

Lemma parent_depth (m : Model) (p : Node.ptr) (next : QModelIndex) :
  parent m (Some p) = Some next -> depth next < depth (Some p).
Proof.
  unfold parent. simpl.
  destruct (at_ptr m p); simpl; [| discriminate].
  destruct p as [| r [| r' up]]; simpl; intros [= <-]; simpl; lia.
Qed.

(** The loop over the parents in [setData], entered with
    [parent = this->parent(index)]:
<<
    while (parent.isValid()) {
      emit dataChanged(parent, parent, {role});
      parent = this->parent(parent);
    }
>> *)
Equations? notifyParents (m : Model) (role : Role) (par : QModelIndex)
  : option (list Signal) by wf (depth par) lt :=
  notifyParents m role None := Some [];
  notifyParents m role (Some p) with inspect (parent m (Some p)) => {
    | exist _ None _ := None;
    | exist _ (Some next) e :=
        do sigs <- notifyParents m role next;
        Some (dataChanged (Some p) (Some p) [role] :: sigs) }.
Proof.
  apply (parent_depth m p next e).
Qed.

Definition setData (m : Model) (idx : QModelIndex) (value : Z) (role : Role)
           (ignoreIndexChanges : bool) : option (Model * list Signal * bool) :=
  match role with
  | CheckStateRole =>
      do p <- node m idx;
      do root <- mRoot m;
      do prefix <- Node.path root true p;
      let files := startingWith (mDiff m) prefix in
      let m' := if negb ignoreIndexChanges
                then callSetStaged m files (toBool value)
                else m in
      do has <- hasChildren m' idx;
      do childs <- (if has
                    then do count <- rowCount m' idx;
                         notifyChildren m' role idx (seq 0 count)
                    else Some []);
      do par <- parent m' idx;
      do parents <- notifyParents m' role par;
      Some (m',
            childs ++ parents ++
              [dataChanged idx idx [role]; checkStateChanged idx (toInt value)],
            true)
  | _ => Some (m, [], false)
  end.

(** The three-argument overload of the item-model interface:
    [return setData(index, value, role, false);] *)
Definition setDataRole (m : Model) (idx : QModelIndex) (value : Z) (role : Role)
  : option (Model * list Signal * bool) :=
  setData m idx value role false.

End DiffTreeModel.

(** ** The spec's readings, to compare the code with *)

(** §4.2, steps 5 and 6: the state of a node from the statuses of its
    matching entries. *)
Definition isPartial (st : StagedState) : bool :=
  match st with PartiallyStaged => true | _ => false end.

Definition isFullyStaged (st : StagedState) : bool :=
  match st with Staged => true | _ => false end.

Definition triState (statuses : list StagedState) : CheckState :=
  if existsb isPartial statuses then PartiallyChecked
  else
    let counter := length (filter isFullyStaged statuses) in
    if Nat.eqb counter 0 then Unchecked
    else if Nat.eqb counter (length statuses) then Checked
    else PartiallyChecked.

(** §3 and §4.2, step 3: [prefix] is a prefix of [path] that ends where a
    segment of [path] ends. *)
Definition segmentPrefix (path prefix : string) : bool :=
  String.eqb path prefix || QString.startsWith path (prefix ++ "/")%string.

(** §4.2, step 3: the entries of the diff under a prefix, segment-wise. *)
Definition segmentMatches {Idx : Type} (d : Diff Idx) (prefix : string)
  : list string :=
  filter (fun path => segmentPrefix path prefix) (names d).

(** §4.2, steps 3 to 6: the answer of the inclusion-state query for a node
    with relative path [prefix], with a valid status diff attached:
    undetermined without a matching entry, the state of the statuses of
    the matching entries otherwise. *)
Definition specCheckState {Idx : Type} {bridge : StagingBridge Idx}
           (d : Diff Idx) (prefix : string) : QVariant :=
  match segmentMatches d prefix with
  | [] => QInvalid
  | paths => QCheck (triState (map (isStaged (index_ d)) paths))
  end.

(** The roles [data] answers from the tree and the entries of the diff
    alone: not the inclusion state, which reads the staging index, and not
    the kind and the history links, which ask the repository. *)
Definition readsTreeAndDiff (role : Role) : bool :=
  match role with
  | DisplayRole | EditRole | ToolTipRole | StatusRole | OtherRole _ => true
  | CheckStateRole | KindRole | AddedRole | ModifiedRole => false
  end.

(** §4.3, step 4: the strict ancestors of a node, walking upward, the root
    left out. *)
Fixpoint strictAncestors (p : Node.ptr) : list Node.ptr :=
  match p with
  | [] => []
  | _ :: up =>
      match up with
      | [] => []
      | _ :: _ => up :: strictAncestors up
      end
  end.

(** §4.4: the distinct codes, each where it is first seen. *)
Fixpoint firstSeen (codes : list ascii) : list ascii :=
  match codes with
  | [] => []
  | c :: rest => c :: filter (fun d => negb (Ascii.eqb d c)) (firstSeen rest)
  end.

(** §4.4: the status codes of the entries under a prefix, in the order of
    the diff; [under] decides what is under the prefix. *)
Definition codesUnder (statusChar : Z -> ascii) (under : string -> string -> bool)
           (es : list (string * Z)) (prefix : string) : list ascii :=
  map (fun e => statusChar (snd e)) (filter (fun e => under (fst e) prefix) es).

(** A code is new when the string built so far does not hold it. *)
Definition fresh (seen : list ascii) (ch : ascii) : bool :=
  negb (existsb (fun c => Ascii.eqb c ch) seen).

(** The index [parent] answers for a node at [p] of the tree: invalid
    for the root and for its children. *)
Definition indexAbove (p : Node.ptr) : QModelIndex :=
  match p with
  | [] | [_] => None
  | _ :: up => @Some Node.ptr up
  end.

(** §4.3, step 5: the state-changed signal for one index, and the signals
    of a toggle of the node [n] at [p], reached through [idx]: the children
    in row order, the strict ancestors walking upward, the node itself,
    then the inclusion-changed event.  The children are only listed when
    the diff is valid ([rowCount] is 0 otherwise). *)
Definition changed (role : Role) (idx : QModelIndex) : Signal :=
  dataChanged idx idx [role].

Definition toggleSignals (valid : bool) (role : Role) (idx : QModelIndex)
           (p : Node.ptr) (n : Node.t) (value : Z) : list Signal :=
  (if valid
   then map (fun row => changed role (Some (row :: p)))
            (seq 0 (length (Node.children n)))
   else []) ++
  map (fun q => changed role (Some q)) (strictAncestors p) ++
  [changed role idx; checkStateChanged idx (toInt value)].

(** §3: the names of the nodes met from [n] down along the rows. *)
Fixpoint namesAlong (n : Node.t) (rows : list nat) : option (list string) :=
  match rows with
  | [] => Some [Node.name n]
  | r :: rows' =>
      do c <- nth_error (Node.children n) r;
      do ns <- namesAlong c rows';
      Some (Node.name n :: ns)
  end.

(** §3: no two children of a node share a name, at every node. *)
#[warnings="-register-all"]
Inductive uniqueSiblings : Node.t -> Prop :=
| uniqueSiblings_mk (nm : string) (cs : list Node.t) :
    NoDup (map Node.name cs) ->
    Forall uniqueSiblings cs ->
    uniqueSiblings (Node.mk nm cs).

(** The trees met while a tree is built: the fresh root of [setDiff], and
    what an insertion at the root makes of such a tree. *)
Inductive Built (workdir : string) : Node.t -> Prop :=
| Built_root : Built workdir (Node.mk workdir [])
| Built_addChild (t t' : Node.t) (pathParts : list string) :
    Built workdir t ->
    Node.addChild pathParts 0 t = Some t' ->
    Built workdir t'.

(** The node the parts lead to from [this], through the first child of
    each name: the node a second insertion of the same parts walks to. *)
Fixpoint lookupPath (parts : list string) (this : Node.t) : option Node.t :=
  match parts with
  | [] => Some this
  | seg :: rest =>
      match find (fun c => String.eqb (Node.name c) seg) (Node.children this) with
      | Some c => lookupPath rest c
      | None => None
      end
  end.

(** Model states in which a tree is only there with a valid diff, as
    [setDiff] leaves them. *)
Definition attached {Idx : Type} (m : @Model Idx) : Prop :=
  mRoot m <> None -> isValid (mDiff m) = true.

(** The models a view can hold: a new model has no tree and an invalid
    diff; [setDiff] and [setData] lead from one model to the next. *)
Inductive Reachable {Idx : Type} {bridge : StagingBridge Idx} : @Model Idx -> Prop :=
| Reachable_new (repo : string) (d : Diff Idx) :
    isValid d = false ->
    Reachable (mkModel repo d None)
| Reachable_setDiff (m m' : Model) (diff : Diff Idx) (sigs : list Signal) :
    Reachable m ->
    setDiff m diff = Some (m', sigs) ->
    Reachable m'
| Reachable_setData (m m' : Model) (idx : QModelIndex) (value : Z) (role : Role)
    (ignoreIndexChanges : bool) (sigs : list Signal) (ok : bool) :
    Reachable m ->
    setData m idx value role ignoreIndexChanges = Some (m', sigs, ok) ->
    Reachable m'.

(** ** Concrete collaborators, for evaluating the model *)

(** A staging index as a table from paths to states, latest entry first;
    a path the table does not list is [Unstaged]. *)
Definition TableIndex : Type := list (string * StagedState).

Fixpoint tableState (ix : TableIndex) (path : string) : StagedState :=
  match ix with
  | [] => Unstaged
  | (f, st) :: rest => if String.eqb f path then st else tableState rest path
  end.

(** The table whose [setStaged] records the new state of every file. *)
Definition tableBridge : StagingBridge TableIndex := {|
  isStaged := tableState;
  setStaged ix files staged :=
    (map (fun f => (f, if staged then Staged else Unstaged)) files ++ ix, true)
|}.

(** The table whose [setStaged] fails and changes nothing (the underlying
    index is unavailable). *)
Definition brokenBridge : StagingBridge TableIndex := {|
  isStaged := tableState;
  setStaged ix files staged := (ix, false)
|}.

(** Every delta is shown as its low byte; [containsPath] taken as the plain
    prefix test. *)
Definition lowByte (st : Z) : ascii := ascii_of_N (Z.to_N (st mod 256)).
Definition noQuery (r : Role) (path name : string) : QVariant := QInvalid.

(** The scenario of the spec: three unstaged files in two folders, in the
    repository [/repo]. *)
Definition scenarioDiff : Diff TableIndex :=
  mkDiff true true [("src/a.txt", 77%Z); ("src/b.txt", 77%Z); ("docs/c.txt", 65%Z)] [].

Definition emptyModel : @Model TableIndex :=
  mkModel "/repo" (mkDiff false false [] []) None.

Definition scenarioTree : Node.t :=
  Node.mk "/repo"
    [Node.mk "src" [Node.mk "a.txt" []; Node.mk "b.txt" []];
     Node.mk "docs" [Node.mk "c.txt" []]].

Definition scenarioModel : @Model TableIndex :=
  mkModel "/repo" scenarioDiff (Some scenarioTree).


(** The same scenario with a diff that is valid but not a status diff. *)
Definition nonStatusModel : @Model TableIndex :=
  mkModel "/repo"
    (mkDiff true false (entries scenarioDiff) (index_ scenarioDiff))
    (Some scenarioTree).

(** A file whose name is the beginning of the name of a folder next to it. *)
Definition prefixDiff : Diff TableIndex :=
  mkDiff true true [("ab", 77%Z); ("abc/x", 77%Z)] [].

Definition prefixTree : Node.t :=
  Node.mk "/repo" [Node.mk "ab" []; Node.mk "abc" [Node.mk "x" []]].

Definition prefixModel (ix : TableIndex) : @Model TableIndex :=
  mkModel "/repo" (mkDiff true true (entries prefixDiff) ix) (Some prefixTree).

(** A diff that lists one path twice. *)
Definition repeatedDiff : Diff TableIndex :=
  mkDiff true true [("a", 68%Z); ("a", 65%Z)] [].

(** ** Readings for the tree as a whole *)

(** [q] is the beginning of [parts], part by part. *)
Fixpoint isPrefixOf (q parts : list string) : bool :=
  match q, parts with
  | [], _ => true
  | _ :: _, [] => false
  | a :: q', b :: parts' => String.eqb a b && isPrefixOf q' parts'
  end.

(** The lists of parts that can be inserted one after the other: none is
    empty, and none is the beginning of one inserted before it. *)
Fixpoint insertable (seen todo : list (list string)) : bool :=
  match todo with
  | [] => true
  | parts :: rest =>
      negb (existsb (isPrefixOf parts) seen) &&
      match parts with [] => false | _ :: _ => true end &&
      insertable (parts :: seen) rest
  end.

Definition isNil {A : Type} (l : list A) : bool :=
  match l with [] => true | _ :: _ => false end.

(** Whether the parts lead to a node of the tree. *)
Definition present (q : list string) (t : Node.t) : bool :=
  match lookupPath q t with Some _ => true | None => false end.

(** The distinct names, each where it is first seen. *)
Fixpoint firstSeenNames (l : list string) : list string :=
  match l with
  | [] => []
  | s :: rest => s :: filter (fun d => negb (String.eqb d s)) (firstSeenNames rest)
  end.

(** A name is new among the names [seen] when none of them is the name. *)
Definition freshName (seen : list string) (s : string) : bool :=
  negb (existsb (fun d => String.eqb d s) seen).

(** The first part of a path. *)
Definition firstPart (path : string) : string :=
  hd "" (QString.split "/" path).

(** A name without the separator. *)
Definition slashFree (w : string) : bool := negb (QString.contains w "/").

(** * Proofs *)

Lemma bind_Some {A B : Type} (c : option A) (k : A -> option B) (b : B) :
  bind c k = Some b <-> exists a, c = Some a /\ k a = Some b.
Proof.
  destruct c as [a|]; simpl; split.
  - intros Hk. exists a. split; [reflexivity | exact Hk].
  - intros [a' [Ha Hk]]. injection Ha as ->. exact Hk.
  - discriminate.
  - intros [a' [Ha _]]. discriminate.
Qed.

Ltac inv_bind H :=
  let x := fresh "x" in
  let Hx := fresh "Hx" in
  apply bind_Some in H; destruct H as [x [Hx H]].

(** ** Insertion *)

Section Insertion.

Variables (hit : Node.t -> bool) (f : Node.t -> option Node.t).

Lemma visit_first_miss (cs : list Node.t) :
  Node.visit_first hit f cs = None <-> Forall (fun c => hit c = false) cs.
Proof.
  induction cs as [| c cs IH]; simpl.
  - split; [constructor | reflexivity].
  - destruct (hit c) eqn:Hc.
    + split; [discriminate |].
      intros H. inversion H; subst. congruence.
    + destruct (Node.visit_first hit f cs).
      * split; [discriminate |].
        intros H. inversion H; subst.
        match goal with HF : Forall _ cs |- _ => apply IH in HF; discriminate end.
      * split; [| reflexivity].
        intros _. constructor; [exact Hc | apply IH; reflexivity].
Qed.

Lemma visit_first_hit (pre post : list Node.t) (c : Node.t) :
  Forall (fun c => hit c = false) pre ->
  hit c = true ->
  Node.visit_first hit f (pre ++ c :: post) =
    Some (do c' <- f c; Some (pre ++ c' :: post)).
Proof.
  intros Hpre Hc.
  induction Hpre as [| d pre Hd _ IH]; simpl.
  - rewrite Hc. reflexivity.
  - rewrite Hd, IH. destruct (f c); reflexivity.
Qed.

Lemma visit_first_found (cs : list Node.t) (r : option (list Node.t)) :
  Node.visit_first hit f cs = Some r ->
  exists pre c post,
    cs = pre ++ c :: post /\
    Forall (fun c => hit c = false) pre /\
    hit c = true /\
    r = (do c' <- f c; Some (pre ++ c' :: post)).
Proof.
  revert r.
  induction cs as [| c cs IH]; simpl; intros r H; [discriminate |].
  destruct (hit c) eqn:Hc.
  - injection H as <-.
    exists [], c, cs. repeat split; [constructor | exact Hc].
  - destruct (Node.visit_first hit f cs) as [r' |]; [| discriminate].
    injection H as <-.
    destruct (IH r' eq_refl) as (pre & d & post & -> & Hpre & Hd & ->).
    exists (c :: pre), d, post.
    repeat split; [constructor; assumption | exact Hd |].
    destruct (f d); reflexivity.
Qed.

End Insertion.

(** An insertion never renames the node it is called on. *)
Lemma addChildFrom_name (parts : list string) (this t' : Node.t) :
  Node.addChildFrom parts this = Some t' -> Node.name t' = Node.name this.
Proof.
  destruct parts as [| seg rest]; simpl; [discriminate |].
  destruct (Node.visit_first _ _ _) as [r |]; intros H; inv_bind H;
    injection H as <-; reflexivity.
Qed.

(** The first insertion of [parts] below a fresh node goes through, and an
    insertion of at least one part below a leaf goes through. *)
Lemma addChildFrom_leaf (parts : list string) (nm : string) :
  parts <> [] -> exists t', Node.addChildFrom parts (Node.mk nm []) = Some t'.
Proof.
  revert nm.
  induction parts as [| seg rest IH]; intros nm Hne; [congruence |].
  simpl. destruct rest as [| seg' rest'].
  - simpl. eexists. reflexivity.
  - destruct (IH seg ltac:(discriminate)) as [t' Ht'].
    change (Nat.ltb 0 (length (seg' :: rest'))) with true. cbv iota.
    rewrite Ht'. simpl. eexists. reflexivity.
Qed.

Lemma uniqueSiblings_leaf (nm : string) : uniqueSiblings (Node.mk nm []).
Proof. constructor; simpl; constructor. Qed.

Lemma addChildFrom_uniqueSiblings (parts : list string) :
  forall this t',
    uniqueSiblings this ->
    Node.addChildFrom parts this = Some t' ->
    uniqueSiblings t'.
Proof.
  induction parts as [| seg rest IH]; intros this t' Huniq H; simpl in H;
    [discriminate |].
  destruct Huniq as [nm cs Hnames Hcs]. simpl in H.
  destruct (Node.visit_first _ _ cs) as [r |] eqn:Hvisit.
  - (* the existing child is descended into *)
    apply visit_first_found in Hvisit.
    destruct Hvisit as (pre & c & post & -> & _ & _ & ->).
    inv_bind H. injection H as <-.
    inv_bind Hx. injection Hx as <-.
    constructor.
    + rewrite map_app in *. simpl in *.
      rewrite (addChildFrom_name _ _ _ Hx0). exact Hnames.
    + apply Forall_app in Hcs. destruct Hcs as [Hpre Hpost].
      apply Forall_app. split; [exact Hpre |].
      inversion Hpost; subst.
      constructor; [eapply IH; eassumption | assumption].
  - (* a new child is appended *)
    apply visit_first_miss in Hvisit.
    inv_bind H. injection H as <-.
    assert (Hn : Node.name x = seg /\ uniqueSiblings x).
    { destruct (Nat.ltb 0 (length rest)).
      - split; [apply (addChildFrom_name _ _ _ Hx) |].
        eapply IH; [apply uniqueSiblings_leaf | exact Hx].
      - injection Hx as <-. split; [reflexivity | apply uniqueSiblings_leaf]. }
    destruct Hn as [Hname Hux].
    constructor.
    + rewrite map_app. simpl. rewrite Hname.
      apply NoDup_rev in Hnames. rewrite <- (rev_involutive (_ ++ _)).
      apply NoDup_rev. rewrite rev_app_distr. simpl.
      constructor; [| exact Hnames].
      rewrite <- in_rev. intros Hin. apply in_map_iff in Hin.
      destruct Hin as [c [Hc Hin]].
      rewrite Forall_forall in Hvisit. specialize (Hvisit c Hin).
      simpl in Hvisit. rewrite Hc, String.eqb_refl in Hvisit. discriminate.
    + apply Forall_app. split; [exact Hcs | constructor; [exact Hux | constructor]].
Qed.

(** Inserting the parts that were just inserted runs past the end of the
    list: every level finds the child of the first insertion and descends,
    down to the index after the last part. *)
Lemma addChildFrom_again (parts : list string) :
  forall this t',
    Node.addChildFrom parts this = Some t' ->
    Node.addChildFrom parts t' = None.
Proof.
  induction parts as [| seg rest IH]; intros this t' H; simpl in H;
    [discriminate |].
  destruct this as [nm cs]. simpl in H.
  destruct (Node.visit_first _ _ cs) as [r |] eqn:Hvisit.
  - apply visit_first_found in Hvisit.
    destruct Hvisit as (pre & c & post & -> & Hpre & Hc & ->).
    inv_bind H. injection H as <-.
    inv_bind Hx. injection Hx as <-.
    simpl.
    rewrite visit_first_hit;
      [| exact Hpre | rewrite (addChildFrom_name _ _ _ Hx0); exact Hc].
    rewrite (IH _ _ Hx0). reflexivity.
  - apply visit_first_miss in Hvisit.
    inv_bind H. injection H as <-.
    simpl.
    assert (Hn : Node.name x = seg /\ Node.addChildFrom rest x = None).
    { destruct rest as [| seg' rest'].
      - injection Hx as <-. split; reflexivity.
      - change (Nat.ltb 0 (length (seg' :: rest'))) with true in Hx.
        cbv iota in Hx.
        split; [apply (addChildFrom_name _ _ _ Hx) | apply (IH _ _ Hx)]. }
    destruct Hn as [Hname Hrest].
    rewrite (visit_first_hit _ _ cs [] x Hvisit);
      [| rewrite Hname; apply String.eqb_refl].
    rewrite Hrest. reflexivity.
Qed.

Lemma find_first_hit {A : Type} (hit : A -> bool) (pre post : list A) (c : A) :
  Forall (fun c => hit c = false) pre ->
  hit c = true ->
  find hit (pre ++ c :: post) = Some c.
Proof.
  intros Hpre Hc. induction Hpre as [| d pre Hd _ IH]; simpl.
  - rewrite Hc. reflexivity.
  - rewrite Hd. exact IH.
Qed.

Lemma find_all_miss {A : Type} (hit : A -> bool) (cs : list A) :
  Forall (fun c => hit c = false) cs -> find hit cs = None.
Proof.
  induction 1 as [| d cs Hd _ IH]; simpl; [reflexivity |].
  rewrite Hd. exact IH.
Qed.

(** An insertion aborts exactly when its parts lead to a node that is
    already in the tree: a path is inserted once, and never after a path
    it is the beginning of. *)
Lemma addChildFrom_aborts_iff (parts : list string) :
  forall this,
    Node.addChildFrom parts this = None <->
    exists n, lookupPath parts this = Some n.
Proof.
  induction parts as [| seg rest IH]; intros this; simpl.
  - split; [eauto | reflexivity].
  - destruct (Node.visit_first _ _ (Node.children this)) as [r |] eqn:Hvisit.
    + apply visit_first_found in Hvisit.
      destruct Hvisit as (pre & c & post & -> & Hpre & Hc & ->).
      rewrite (find_first_hit _ pre post c Hpre Hc), <- IH.
      destruct (Node.addChildFrom rest c); simpl; split; congruence.
    + apply visit_first_miss in Hvisit.
      rewrite (find_all_miss _ _ Hvisit).
      split; [| intros [n Hn]; discriminate].
      destruct rest as [| seg' rest']; [discriminate |].
      destruct (addChildFrom_leaf (seg' :: rest') seg ltac:(discriminate))
        as [t' Ht'].
      change (Nat.ltb 0 (length (seg' :: rest'))) with true. cbv iota zeta.
      rewrite Ht'. discriminate.
Qed.

Lemma split_not_nil (sep : ascii) (s : string) : QString.split sep s <> [].
Proof.
  destruct s as [| c s]; simpl; [discriminate |].
  destruct (Ascii.eqb c sep); [discriminate |].
  destruct (QString.split sep s); discriminate.
Qed.

(** The first insertion into the fresh root goes through, whatever the path. *)
Lemma addChild_fresh_root (path workdir : string) :
  exists t', Node.addChild (QString.split "/" path) 0 (Node.mk workdir []) = Some t'.
Proof.
  unfold Node.addChild. simpl skipn.
  apply addChildFrom_leaf, split_not_nil.
Qed.

Lemma addChild_uniqueSiblings (pathPart : list string) (i : nat) (this t' : Node.t) :
  uniqueSiblings this ->
  Node.addChild pathPart i this = Some t' ->
  uniqueSiblings t'.
Proof. unfold Node.addChild. apply addChildFrom_uniqueSiblings. Qed.

Lemma Built_uniqueSiblings (workdir : string) (t : Node.t) :
  Built workdir t -> uniqueSiblings t.
Proof.
  induction 1 as [| t t' parts _ IH Hadd].
  - apply uniqueSiblings_leaf.
  - exact (addChild_uniqueSiblings _ _ _ _ IH Hadd).
Qed.

Lemma Built_name (workdir : string) (t : Node.t) :
  Built workdir t -> Node.name t = workdir.
Proof.
  induction 1 as [| t t' parts _ IH Hadd]; [reflexivity |].
  rewrite <- IH. exact (addChildFrom_name _ _ _ Hadd).
Qed.

Lemma descend_uniqueSiblings (rows : list nat) :
  forall t n, uniqueSiblings t -> Node.descend t rows = Some n -> uniqueSiblings n.
Proof.
  induction rows as [| r rows IH]; simpl; intros t n Ht H.
  - injection H as <-. exact Ht.
  - destruct (nth_error (Node.children t) r) as [c |] eqn:Hc; [| discriminate].
    apply IH with (t := c); [| exact H].
    destruct Ht as [nm cs _ Hcs]. simpl in Hc.
    rewrite Forall_forall in Hcs. apply Hcs. eapply nth_error_In. exact Hc.
Qed.

(** ** Paths *)

Lemma append_assoc (a b c : string) : ((a ++ b) ++ c = a ++ b ++ c)%string.
Proof. induction a as [| x a IH]; simpl; [reflexivity | rewrite IH; reflexivity]. Qed.

Lemma join_snoc (sep x : string) (l : list string) :
  l <> [] -> QString.join sep (l ++ [x]) = (QString.join sep l ++ sep ++ x)%string.
Proof.
  unfold QString.join.
  induction l as [| a l IH]; intros Hne; [congruence |].
  destruct l as [| b l].
  - reflexivity.
  - change (String.concat sep ((a :: b :: l) ++ [x]))
      with (a ++ sep ++ String.concat sep ((b :: l) ++ [x]))%string.
    rewrite IH by discriminate.
    change (String.concat sep (a :: b :: l)) with (a ++ sep ++ String.concat sep (b :: l))%string.
    rewrite !append_assoc. reflexivity.
Qed.

Lemma descend_app (a b : list nat) :
  forall n, Node.descend n (a ++ b) = (do m <- Node.descend n a; Node.descend m b).
Proof.
  induction a as [| r a IH]; simpl; intros n; [reflexivity |].
  destruct (nth_error (Node.children n) r); [apply IH | reflexivity].
Qed.

Lemma deref_cons (root : Node.t) (r : nat) (up : Node.ptr) :
  Node.deref root (r :: up) =
    (do pn <- Node.deref root up; nth_error (Node.children pn) r).
Proof.
  unfold Node.deref. simpl. rewrite descend_app.
  destruct (Node.descend root (rev up)) as [pn |]; simpl; [| reflexivity].
  destruct (nth_error (Node.children pn) r); reflexivity.
Qed.

Lemma namesAlong_snoc (rows : list nat) (r : nat) :
  forall n,
    namesAlong n (rows ++ [r]) =
      (do ns <- namesAlong n rows;
       do pn <- Node.descend n rows;
       do c <- nth_error (Node.children pn) r;
       Some (ns ++ [Node.name c])).
Proof.
  induction rows as [| r' rows IH]; simpl; intros n.
  - destruct (nth_error (Node.children n) r); reflexivity.
  - destruct (nth_error (Node.children n) r') as [c |]; simpl; [| reflexivity].
    rewrite IH.
    destruct (namesAlong c rows) as [ns |]; simpl; [| reflexivity].
    destruct (Node.descend c rows) as [pn |]; simpl; [| reflexivity].
    destruct (nth_error (Node.children pn) r); reflexivity.
Qed.

Lemma namesAlong_shape (rows : list nat) :
  forall n ns,
    namesAlong n rows = Some ns ->
    length ns = S (length rows) /\ hd_error ns = Some (Node.name n).
Proof.
  induction rows as [| r rows IH]; simpl; intros n ns H.
  - injection H as <-. split; reflexivity.
  - inv_bind H. inv_bind H. injection H as <-.
    destruct (IH _ _ Hx0) as [Hlen _]. simpl. split; [lia | reflexivity].
Qed.

Lemma namesAlong_descend (rows : list nat) :
  forall n, (exists ns, namesAlong n rows = Some ns) <->
            (exists c, Node.descend n rows = Some c).
Proof.
  induction rows as [| r rows IH]; simpl; intros n.
  - split; intros _; eexists; reflexivity.
  - destruct (nth_error (Node.children n) r) as [c |]; simpl.
    + rewrite <- IH. split; intros [ns H].
      * inv_bind H. eauto.
      * rewrite H. simpl. eauto.
    + split; intros [x H]; discriminate.
Qed.

Lemma path_joins_names (root : Node.t) (p : Node.ptr) :
  forall ns,
    namesAlong root (rev p) = Some ns ->
    Node.path root false p = Some (QString.join "/" ns) /\
    Node.path root true p =
      Some (match p with
            | [] => Node.name root
            | _ :: _ => QString.join "/" (tl ns)
            end).
Proof.
  induction p as [| r up IH]; intros ns H.
  - simpl in H. injection H as <-. split; reflexivity.
  - simpl rev in H. rewrite namesAlong_snoc in H.
    inv_bind H. inv_bind H. inv_bind H. injection H as <-.
    rename x into ns', x0 into pn, x1 into c.
    destruct (IH ns' Hx) as [IHfull IHrel].
    destruct (namesAlong_shape _ _ _ Hx) as [Hlen _].
    rewrite length_rev in Hlen.
    assert (Hderef : Node.deref root (r :: up) = Some c).
    { rewrite deref_cons. unfold Node.deref. rewrite Hx0. exact Hx1. }
    split.
    + simpl Node.path. rewrite Hderef. simpl.
      rewrite IHfull. simpl.
      rewrite join_snoc; [reflexivity |].
      destruct ns'; [discriminate | discriminate].
    + simpl Node.path. rewrite Hderef. simpl.
      destruct up as [| r' up'].
      * simpl in Hlen.
        destruct ns' as [| a [| b ns'']]; simpl in Hlen; try discriminate.
        reflexivity.
      * rewrite IHrel. simpl bind.
        destruct ns' as [| a [| b ns'']]; simpl in Hlen; try lia.
        change (tl ((a :: b :: ns'') ++ [Node.name c]))
          with ((b :: ns'') ++ [Node.name c]).
        rewrite join_snoc by discriminate. reflexivity.
Qed.

(** A path is there for every node the pointer reaches. *)
Lemma path_total (root : Node.t) (relative : bool) (p : Node.ptr) (n : Node.t) :
  Node.deref root p = Some n -> exists s, Node.path root relative p = Some s.
Proof.
  intros H.
  destruct (proj2 (namesAlong_descend (rev p) root) (ex_intro _ n H)) as [ns Hns].
  destruct (path_joins_names root p ns Hns) as [Hfull Hrel].
  destruct relative; eauto.
Qed.

Lemma path_deref (root : Node.t) (relative : bool) (p : Node.ptr) (s : string) :
  Node.path root relative p = Some s -> exists n, Node.deref root p = Some n.
Proof.
  destruct p as [| r up].
  - intros _. exists root. reflexivity.
  - cbn [Node.path]. intros H. inv_bind H. eauto.
Qed.

(** ** Queries *)

Section Queries.

Context {Idx : Type} {bridge : StagingBridge Idx}.
Variable statusChar : Z -> ascii.
Variable containsPath : string -> string -> bool.
Variable repoQuery : Role -> string -> string -> QVariant.

(** The [foreach] of the check-state query, as a tally. *)
Lemma countStaged_tally (ix : Idx) (paths : list string) :
  forall count,
    countStaged ix paths count =
      let statuses := map (isStaged ix) paths in
      if existsb isPartial statuses then inl PartiallyChecked
      else inr (count + Z.of_nat (length (filter isFullyStaged statuses)))%Z.
Proof.
  induction paths as [| path rest IH]; intros count; simpl.
  - f_equal. lia.
  - destruct (isStaged ix path); simpl; try apply IH; [reflexivity |].
    rewrite IH. simpl.
    destruct (existsb isPartial (map (isStaged ix) rest)); [reflexivity |].
    f_equal. lia.
Qed.

Lemma checkState_triState (d : Diff Idx) (prefix : string) :
  checkState d prefix =
    match startingWith d prefix with
    | [] => QInvalid
    | paths => QCheck (triState (map (isStaged (index_ d)) paths))
    end.
Proof.
  unfold checkState.
  destruct (startingWith d prefix) as [| path rest] eqn:Hpaths; [reflexivity |].
  rewrite countStaged_tally. cbv zeta. unfold triState.
  set (statuses := map (isStaged (index_ d)) (path :: rest)).
  destruct (existsb isPartial statuses); [reflexivity |].
  replace (length (path :: rest)) with (length statuses)
    by (unfold statuses; apply length_map).
  set (k := length (filter isFullyStaged statuses)).
  rewrite Z.add_0_l.
  destruct (Nat.eqb_spec k 0) as [-> | Hk0]; [reflexivity |].
  destruct (Z.eqb_spec (Z.of_nat k) 0) as [Hz | _]; [lia |].
  destruct (Nat.eqb_spec k (length statuses)) as [-> | Hkn].
  - rewrite Z.eqb_refl. reflexivity.
  - destruct (Z.eqb_spec (Z.of_nat k) (Z.of_nat (length statuses))) as [Hz | _];
      [lia | reflexivity].
Qed.

(** The counting of the query, over the entries its own loop collects:
    the invalid variant when there are none; otherwise [PartiallyChecked]
    as soon as one is [PartiallyStaged], else [Unchecked] when no entry is
    [Staged], [Checked] when all of them are, and [PartiallyChecked]
    otherwise.  Which entries the loop collects is the matter of the two
    statements on [startsWith] further down. *)
Theorem data_checkState_tristate (m : Model) (root : Node.t) (p : Node.ptr)
        (prefix : string) :
  isValid (mDiff m) = true ->
  isStatusDiff (mDiff m) = true ->
  mRoot m = Some root ->
  Node.path root true p = Some prefix ->
  data statusChar containsPath repoQuery m (Some p) CheckStateRole =
    Some (match startingWith (mDiff m) prefix with
          | [] => QInvalid
          | paths => QCheck (triState (map (isStaged (index_ (mDiff m))) paths))
          end).
Proof.
  intros Hvalid Hstatus Hroot Hpath.
  unfold data. rewrite Hvalid, Hstatus, Hroot. simpl.
  rewrite Hpath. simpl. rewrite checkState_triState. reflexivity.
Qed.

(** *** The status summary *)

Lemma filter_filter {A : Type} (f g : A -> bool) (l : list A) :
  filter f (filter g l) = filter (fun x => g x && f x) l.
Proof.
  induction l as [| x l IH]; simpl; [reflexivity |].
  destruct (g x); simpl; [destruct (f x); rewrite IH; reflexivity | exact IH].
Qed.

Lemma contains_existsb (s : string) (ch : ascii) :
  QString.contains s ch =
    existsb (fun c => Ascii.eqb c ch) (list_ascii_of_string s).
Proof. induction s as [| c s IH]; simpl; [| rewrite IH]; reflexivity. Qed.

Lemma list_ascii_append (s : string) (ch : ascii) :
  list_ascii_of_string (QString.append s ch) = list_ascii_of_string s ++ [ch].
Proof.
  unfold QString.append.
  induction s as [| c s IH]; simpl; [| rewrite IH]; reflexivity.
Qed.

Lemma statusLoop_firstSeen (es : list (string * Z)) (prefix : string) :
  forall status,
    list_ascii_of_string (statusLoop statusChar containsPath es prefix status) =
      list_ascii_of_string status ++
        filter (fresh (list_ascii_of_string status))
               (firstSeen (codesUnder statusChar containsPath es prefix)).
Proof.
  unfold codesUnder.
  induction es as [| [name st] rest IH]; intros status; simpl.
  - rewrite app_nil_r. reflexivity.
  - destruct (containsPath name prefix); simpl; [| apply IH].
    rewrite contains_existsb.
    fold (fresh (list_ascii_of_string status) (statusChar st)).
    destruct (fresh (list_ascii_of_string status) (statusChar st)) eqn:Hnew; simpl.
    + rewrite IH, list_ascii_append, <- app_assoc. simpl.
      do 2 f_equal. rewrite filter_filter. apply filter_ext.
      intros d. unfold fresh. rewrite existsb_app. simpl.
      rewrite orb_false_r, negb_orb, (Ascii.eqb_sym d). apply andb_comm.
    + rewrite IH. f_equal. rewrite filter_filter. apply filter_ext.
      intros d. destruct (Ascii.eqb_spec d (statusChar st)) as [-> | _]; simpl.
      * exact Hnew.
      * reflexivity.
Qed.

Lemma firstSeen_In (codes : list ascii) (c : ascii) :
  In c (firstSeen codes) <-> In c codes.
Proof.
  induction codes as [| d rest IH]; simpl; [reflexivity |].
  rewrite filter_In, IH.
  destruct (Ascii.eqb_spec c d) as [-> | Hne]; simpl.
  - split; intros _; left; reflexivity.
  - split.
    + intros [Heq | [Hin _]]; [left; exact Heq | right; exact Hin].
    + intros [Heq | Hin]; [congruence | right; split; [exact Hin | reflexivity]].
Qed.

Lemma firstSeen_NoDup (codes : list ascii) : NoDup (firstSeen codes).
Proof.
  induction codes as [| d rest IH]; simpl; constructor.
  - rewrite filter_In, Ascii.eqb_refl. intros [_ H]. discriminate.
  - apply NoDup_filter. exact IH.
Qed.

(** C9.  On a node with relative path [prefix] the status-summary query
    returns the status codes of the entries of the diff under [prefix]
    (as [containsPath] decides), each code once, where it is first seen
    in the scan; it returns the empty string when the diff is invalid.
    The query is a function of the model: it returns a value and no new
    model. *)
Theorem data_status_summary (m : Model) (root : Node.t) (p : Node.ptr)
        (prefix : string) :
  mRoot m = Some root ->
  Node.path root true p = Some prefix ->
  let codes := codesUnder statusChar containsPath (entries (mDiff m)) prefix in
  data statusChar containsPath repoQuery m (Some p) StatusRole =
    Some (QStr (if isValid (mDiff m)
                then string_of_list_ascii (firstSeen codes)
                else "")) /\
  NoDup (firstSeen codes) /\
  (forall c, In c (firstSeen codes) <-> In c codes).
Proof.
  intros Hroot Hpath codes.
  split; [| split; [apply firstSeen_NoDup | apply firstSeen_In]].
  unfold data. destruct (isValid (mDiff m)); simpl; [| reflexivity].
  rewrite Hroot. simpl. rewrite Hpath. simpl.
  do 2 f_equal.
  rewrite <- (string_of_list_ascii_of_string (statusLoop _ _ _ _ _)).
  rewrite statusLoop_firstSeen. simpl.
  f_equal. fold codes.
  rewrite <- (filter_ext (fun _ => true)) by reflexivity.
  induction (firstSeen codes) as [| c l IH]; simpl; [| rewrite IH]; reflexivity.
Qed.

(** With an invalid diff the summary is empty whatever the index points at. *)
Lemma data_status_invalid (m : Model) (p : Node.ptr) :
  isValid (mDiff m) = false ->
  data statusChar containsPath repoQuery m (Some p) StatusRole = Some (QStr "").
Proof. intros H. unfold data. rewrite H. reflexivity. Qed.

(** *** Attaching a diff *)

Lemma createDiffTreeLoop_Built (workdir : string) (paths : list string) :
  forall root root',
    Built workdir root ->
    createDiffTreeLoop paths root = Some root' ->
    Built workdir root'.
Proof.
  induction paths as [| path rest IH]; simpl; intros root root' Hb H.
  - injection H as <-. exact Hb.
  - inv_bind H. eapply IH; [| exact H].
    eapply Built_addChild; eassumption.
Qed.

Lemma setDiff_cases (m : @Model Idx) (diff : Diff Idx) :
  setDiff m diff =
    if isValid diff
    then do root' <- createDiffTreeLoop (names diff) (Node.mk (mRepo m) []);
         Some (mkModel (mRepo m) diff (Some root'),
               [modelAboutToBeReset; modelReset])
    else Some (m, [modelAboutToBeReset; modelReset]).
Proof.
  unfold setDiff, createDiffTree. destruct (isValid diff); simpl; [| reflexivity].
  destruct (createDiffTreeLoop _ _); reflexivity.
Qed.

(** C10.  [setDiff] with an invalid diff leaves the model as it is, tree
    and stored diff included, and still emits the two reset signals; with
    a valid diff it stores the diff and builds the tree anew from a fresh
    root named after the working directory, whatever the old tree was. *)
Theorem setDiff_invalid_keeps_model (m : @Model Idx) (diff : Diff Idx) :
  (isValid diff = false ->
   setDiff m diff = Some (m, [modelAboutToBeReset; modelReset])) /\
  (isValid diff = true ->
   setDiff m diff =
     (do root' <- createDiffTreeLoop (names diff) (Node.mk (mRepo m) []);
      Some (mkModel (mRepo m) diff (Some root'),
            [modelAboutToBeReset; modelReset]))).
Proof.
  rewrite setDiff_cases. split; intros ->; reflexivity.
Qed.

Lemma setDiff_attached (m m' : @Model Idx) (diff : Diff Idx) (sigs : list Signal) :
  attached m -> setDiff m diff = Some (m', sigs) -> attached m'.
Proof.
  intros Hm H. rewrite setDiff_cases in H.
  destruct (isValid diff) eqn:Hd.
  - inv_bind H. injection H as <- _. intros _. exact Hd.
  - injection H as <- _. exact Hm.
Qed.

Lemma setDiff_Built (m m' : @Model Idx) (diff : Diff Idx) (sigs : list Signal) :
  isValid diff = true ->
  setDiff m diff = Some (m', sigs) ->
  exists root, mRoot m' = Some root /\ Built (mRepo m') root.
Proof.
  intros Hd H. rewrite setDiff_cases, Hd in H. inv_bind H. injection H as <- _.
  eexists. split; [reflexivity |]. simpl.
  eapply createDiffTreeLoop_Built; [apply Built_root | exact Hx].
Qed.

End Queries.

(** ** Toggling *)

Section Toggling.

Context {Idx : Type} {bridge : StagingBridge Idx}.

Lemma at_ptr_deref (m : @Model Idx) (root : Node.t) (p : Node.ptr) :
  mRoot m = Some root -> at_ptr m p = Node.deref root p.
Proof. intros H. unfold at_ptr. rewrite H. reflexivity. Qed.

Lemma node_root (m : @Model Idx) (root : Node.t) (idx : QModelIndex) :
  mRoot m = Some root ->
  node m idx = Some (match idx with Some p => p | None => [] end).
Proof. intros H. destruct idx; simpl; [| rewrite H]; reflexivity. Qed.

Lemma index_row (m : @Model Idx) (root n : Node.t) (idx : QModelIndex)
      (p : Node.ptr) (row : nat) :
  isValid (mDiff m) = true ->
  mRoot m = Some root ->
  node m idx = Some p ->
  Node.deref root p = Some n ->
  row < length (Node.children n) ->
  index m (Z.of_nat row) 0 idx = Some (Some (row :: p)).
Proof.
  intros Hvalid Hroot Hnode Hn Hrow.
  unfold index, rowCount, columnCount.
  rewrite Hvalid, Hnode. simpl.
  rewrite (at_ptr_deref m root p Hroot), Hn. simpl.
  destruct (Z.ltb_spec (Z.of_nat row) 0) as [Hneg | _]; [lia |].
  destruct (Z.geb_spec (Z.of_nat row) (Z.of_nat (length (Node.children n))))
    as [Hge | _]; [lia |].
  simpl. rewrite Nat2Z.id.
  destruct (nth_error (Node.children n) row) eqn:Hc; [reflexivity |].
  apply nth_error_None in Hc. lia.
Qed.

Lemma notifyChildren_rows (m : @Model Idx) (root n : Node.t) (role : Role)
      (idx : QModelIndex) (p : Node.ptr) (rows : list nat) :
  isValid (mDiff m) = true ->
  mRoot m = Some root ->
  node m idx = Some p ->
  Node.deref root p = Some n ->
  Forall (fun row => row < length (Node.children n)) rows ->
  notifyChildren m role idx rows =
    Some (map (fun row => changed role (Some (row :: p))) rows).
Proof.
  intros Hvalid Hroot Hnode Hn Hrows.
  induction Hrows as [| row rows Hrow _ IH]; simpl; [reflexivity |].
  rewrite (index_row m root n idx p row Hvalid Hroot Hnode Hn Hrow). simpl.
  rewrite IH. reflexivity.
Qed.

Lemma parent_of (m : @Model Idx) (root n : Node.t) (idx : QModelIndex)
      (p : Node.ptr) :
  mRoot m = Some root ->
  node m idx = Some p ->
  Node.deref root p = Some n ->
  parent m idx = Some (indexAbove p).
Proof.
  intros Hroot Hnode Hn. unfold parent.
  rewrite Hnode. simpl. rewrite (at_ptr_deref m root p Hroot), Hn. simpl.
  destruct p as [| r [| r' up]]; reflexivity.
Qed.

(** One turn of the loop over the parents. *)
Lemma notifyParents_step (m : @Model Idx) (role : Role) (p : Node.ptr) :
  notifyParents m role (Some p) =
    (do next <- parent m (Some p);
     do sigs <- notifyParents m role next;
     Some (changed role (Some p) :: sigs)).
Proof.
  rewrite notifyParents_equation_1.
  assert (H : forall i : {y : option QModelIndex | parent m (Some p) = y},
             notifyParents_unfold_clause_2 m role p i =
               (do next <- proj1_sig i;
                do sigs <- notifyParents m role next;
                Some (changed role (Some p) :: sigs))).
  { intros [[next |] e]; reflexivity. }
  exact (H (inspect (parent m (Some p)))).
Qed.

Lemma deref_up (root n : Node.t) (r : nat) (up : Node.ptr) :
  Node.deref root (r :: up) = Some n -> exists pn, Node.deref root up = Some pn.
Proof. rewrite deref_cons. intros H. inv_bind H. eauto. Qed.

(** The loop over the parents signals the index it starts at, then its
    strict ancestors, nearest first. *)
Lemma notifyParents_chain (m : @Model Idx) (root : Node.t) (role : Role)
      (p : Node.ptr) :
  mRoot m = Some root ->
  forall n, Node.deref root p = Some n ->
  notifyParents m role (Some p) =
    Some (map (fun q => changed role (Some q)) (p :: strictAncestors p)).
Proof.
  intros Hroot.
  induction p as [| r up IH]; intros n Hn; rewrite notifyParents_step;
    rewrite (parent_of m root n (Some _) _ Hroot eq_refl Hn).
  - cbn [bind indexAbove]. rewrite notifyParents_equation_2. reflexivity.
  - destruct up as [| r' up'].
    + cbn [bind indexAbove]. rewrite notifyParents_equation_2. reflexivity.
    + destruct (deref_up _ _ _ _ Hn) as [pn Hpn].
      cbn [bind indexAbove]. rewrite (IH pn Hpn). reflexivity.
Qed.

Lemma setData_toggle (m : @Model Idx) (root n : Node.t) (idx : QModelIndex)
      (p : Node.ptr) (prefix : string) (value : Z) (ignoreIndexChanges : bool) :
  mRoot m = Some root ->
  node m idx = Some p ->
  Node.deref root p = Some n ->
  Node.path root true p = Some prefix ->
  setData m idx value CheckStateRole ignoreIndexChanges =
    Some (if negb ignoreIndexChanges
          then callSetStaged m (startingWith (mDiff m) prefix) (toBool value)
          else m,
          toggleSignals (isValid (mDiff m)) CheckStateRole idx p n value,
          true).
Proof.
  intros Hroot Hnode Hn Hpath.
  unfold setData. rewrite Hnode, Hroot. cbn [bind]. rewrite Hpath. cbn [bind].
  set (m' := if negb ignoreIndexChanges then _ else m).
  assert (Hroot' : mRoot m' = Some root)
    by (subst m'; destruct ignoreIndexChanges; exact Hroot).
  assert (Hvalid' : isValid (mDiff m') = isValid (mDiff m))
    by (subst m'; destruct ignoreIndexChanges; reflexivity).
  assert (Hnode' : node m' idx = Some p).
  { rewrite (node_root m root idx Hroot) in Hnode.
    rewrite (node_root m' root idx Hroot'). exact Hnode. }
  clearbody m'.
  unfold hasChildren. rewrite Hroot', Hnode'. cbn [bind].
  rewrite (at_ptr_deref m' root p Hroot'), Hn. cbn [bind].
  rewrite (parent_of m' root n idx p Hroot' Hnode' Hn). cbn [bind].
  unfold toggleSignals.
  (* the children *)
  assert (Hchildren :
    (if Node.hasChildren n
     then do count <- rowCount m' idx;
          notifyChildren m' CheckStateRole idx (seq 0 count)
     else Some []) =
    Some (if isValid (mDiff m)
          then map (fun row => changed CheckStateRole (Some (row :: p)))
                   (seq 0 (length (Node.children n)))
          else [])).
  { unfold Node.hasChildren.
    destruct (Nat.ltb_spec 0 (length (Node.children n))) as [Hpos | Hzero].
    - unfold rowCount. rewrite Hvalid'.
      destruct (isValid (mDiff m)) eqn:Hvalid; [| reflexivity].
      rewrite Hnode'. cbn [bind].
      rewrite (at_ptr_deref m' root p Hroot'), Hn. cbn [bind].
      apply (notifyChildren_rows m' root n); try assumption; try congruence.
      apply Forall_forall. intros row Hrow. apply in_seq in Hrow. lia.
    - replace (length (Node.children n)) with 0 by lia.
      destruct (isValid (mDiff m)); reflexivity. }
  rewrite Hchildren. cbn [bind].
  (* the parents *)
  assert (Hparents :
    notifyParents m' CheckStateRole (indexAbove p) =
    Some (map (fun q => changed CheckStateRole (Some q)) (strictAncestors p))).
  { destruct p as [| r [| r' up]]; cbn [indexAbove];
      try apply notifyParents_equation_2.
    destruct (deref_up _ _ _ _ Hn) as [pn Hpn].
    apply (notifyParents_chain m' root CheckStateRole (r' :: up) Hroot' pn Hpn). }
  rewrite Hparents. reflexivity.
Qed.

(** A toggle goes through on every node of the tree. *)
Lemma setData_total (m : @Model Idx) (root n : Node.t) (idx : QModelIndex)
      (p : Node.ptr) (value : Z) (ignoreIndexChanges : bool) :
  mRoot m = Some root ->
  node m idx = Some p ->
  Node.deref root p = Some n ->
  exists m' sigs,
    setData m idx value CheckStateRole ignoreIndexChanges = Some (m', sigs, true).
Proof.
  intros Hroot Hnode Hn.
  destruct (path_total root true p n Hn) as [prefix Hpath].
  rewrite (setData_toggle m root n idx p prefix value _ Hroot Hnode Hn Hpath).
  eauto.
Qed.

(** What a toggle that went through was called on. *)
Lemma setData_inv (m m' : @Model Idx) (idx : QModelIndex) (value : Z)
      (ignoreIndexChanges : bool) (sigs : list Signal) (ok : bool) :
  setData m idx value CheckStateRole ignoreIndexChanges = Some (m', sigs, ok) ->
  exists root p n prefix,
    mRoot m = Some root /\ node m idx = Some p /\
    Node.deref root p = Some n /\ Node.path root true p = Some prefix.
Proof.
  unfold setData. intros H.
  inv_bind H. inv_bind H. inv_bind H.
  destruct (path_deref _ _ _ _ Hx1) as [n Hn].
  exists x0, x, n, x1. auto.
Qed.

Lemma strictAncestors_spec (p q : Node.ptr) :
  In q (strictAncestors p) <->
  q <> [] /\ exists pre, pre <> [] /\ p = pre ++ q.
Proof.
  induction p as [| r up IH]; simpl.
  - split; [intros [] |].
    intros [_ [pre [Hpre Hp]]]. destruct pre; [congruence | discriminate].
  - destruct up as [| r' up'].
    + split; [intros [] |].
      intros [Hq [pre [Hpre Hp]]].
      destruct pre as [| a [| b pre]]; [congruence | |]; simpl in Hp.
      * injection Hp as _ Hp. congruence.
      * injection Hp as _ Hp. destruct pre; discriminate.
    + split.
      * intros [<- | Hin].
        -- split; [discriminate |]. exists [r]. split; [discriminate | reflexivity].
        -- apply IH in Hin. destruct Hin as [Hq [pre [Hpre ->]]].
           split; [exact Hq |].
           exists (r :: pre). split; [discriminate | reflexivity].
      * intros [Hq [pre [Hpre Hp]]].
        destruct pre as [| a pre]; [congruence |].
        simpl in Hp. injection Hp as _ Hp.
        destruct pre as [| b pre].
        -- left. exact Hp.
        -- right. apply IH. split; [exact Hq |].
           exists (b :: pre). split; [discriminate | exact Hp].
Qed.

(** C6.  A toggle of a node of the tree, with a valid diff attached, goes
    through and emits, in this order: one state-changed signal for each
    direct child of the node in row order, one for each strict ancestor
    walking upward (the root left out), one for the node itself, and then
    the one inclusion-changed event with the index and the value asked
    for. *)
Theorem setData_notification_order (m : @Model Idx) (root n : Node.t)
        (idx : QModelIndex) (p : Node.ptr) (value : Z)
        (ignoreIndexChanges : bool) :
  isValid (mDiff m) = true ->
  mRoot m = Some root ->
  node m idx = Some p ->
  Node.deref root p = Some n ->
  exists m',
    setData m idx value CheckStateRole ignoreIndexChanges =
      Some (m',
            map (fun row => dataChanged (Some (row :: p)) (Some (row :: p))
                                        [CheckStateRole])
                (seq 0 (length (Node.children n))) ++
            map (fun q => dataChanged (Some q) (Some q) [CheckStateRole])
                (strictAncestors p) ++
            [dataChanged idx idx [CheckStateRole];
             checkStateChanged idx value],
            true).
Proof.
  intros Hvalid Hroot Hnode Hn.
  destruct (path_total root true p n Hn) as [prefix Hpath].
  rewrite (setData_toggle m root n idx p prefix value _ Hroot Hnode Hn Hpath).
  unfold toggleSignals. rewrite Hvalid. eexists. reflexivity.
Qed.

(** C3, as the code has it.  A toggle does not look at what [setStaged]
    returns: when it goes through it returns [true], it emits the signals
    of the propagation-only mode, which end with the signal for the node
    and the inclusion-changed event, and it leaves the model with the
    index [setStaged] left behind; where that index is the one from before
    the call, the model, and so every state read from it, is unchanged. *)
Theorem setData_drops_setStaged_result (m m' : @Model Idx) (idx : QModelIndex)
        (value : Z) (sigs : list Signal) (ok : bool) :
  setData m idx value CheckStateRole false = Some (m', sigs, ok) ->
  ok = true /\
  setData m idx value CheckStateRole true = Some (m, sigs, true) /\
  (exists before,
     sigs = before ++ [dataChanged idx idx [CheckStateRole];
                       checkStateChanged idx value]) /\
  (exists files,
     m' = callSetStaged m files (toBool value) /\
     (fst (setStaged (index_ (mDiff m)) files (toBool value)) = index_ (mDiff m) ->
      m' = m)).
Proof.
  intros H.
  destruct (setData_inv _ _ _ _ _ _ _ H)
    as (root & p & n & prefix & Hroot & Hnode & Hn & Hpath).
  rewrite (setData_toggle m root n idx p prefix value _ Hroot Hnode Hn Hpath) in H.
  rewrite (setData_toggle m root n idx p prefix value _ Hroot Hnode Hn Hpath).
  simpl in H. injection H as <- <- <-. simpl.
  repeat split.
  - unfold toggleSignals. rewrite app_assoc. eexists. reflexivity.
  - exists (startingWith (mDiff m) prefix). split; [reflexivity |].
    unfold callSetStaged. intros ->.
    destruct m as [repo [valid status es ix] rt]. reflexivity.
Qed.

Lemma setData_attached (m m' : @Model Idx) (idx : QModelIndex) (value : Z)
      (role : Role) (ignoreIndexChanges : bool) (sigs : list Signal) (ok : bool) :
  attached m ->
  setData m idx value role ignoreIndexChanges = Some (m', sigs, ok) ->
  attached m'.
Proof.
  intros Hm H.
  destruct role; try (injection H as <- _ _; exact Hm).
  destruct (setData_inv _ _ _ _ _ _ _ H)
    as (root & p & n & prefix & Hroot & Hnode & Hn & Hpath).
  rewrite (setData_toggle m root n idx p prefix value _ Hroot Hnode Hn Hpath) in H.
  injection H as <- _ _.
  destruct ignoreIndexChanges; exact Hm.
Qed.

(** A model never has a tree without a valid diff. *)
Lemma Reachable_attached (m : @Model Idx) : Reachable m -> attached m.
Proof.
  induction 1 as [repo d Hd | m m' diff sigs _ IH H
                  | m m' idx value role ign sigs ok _ IH H].
  - intros Hroot. simpl in Hroot. congruence.
  - exact (setDiff_attached m m' diff sigs IH H).
  - exact (setData_attached m m' idx value role ign sigs ok IH H).
Qed.

End Toggling.

(** ** A diff without staging *)

Section Unsupported.

Context {Idx : Type} {bridge : StagingBridge Idx}.
Variable statusChar : Z -> ascii.
Variable containsPath : string -> string -> bool.
Variable repoQuery : Role -> string -> string -> QVariant.

(** C5, as the code has it.  With a diff that is invalid or is not a status
    diff, every inclusion-state query returns the invalid variant
    (undetermined).  A toggle is not refused: [setData] does not test the
    diff, so on every node of the tree it goes through, calls [setStaged]
    on the entries that start with the node's relative path, emits its
    signals, the last two being the signal for the node and the
    inclusion-changed event, and returns [true]. *)
Theorem unsupported_diff_query_and_toggle (m : @Model Idx) :
  isValid (mDiff m) = false \/ isStatusDiff (mDiff m) = false ->
  (forall idx,
     data statusChar containsPath repoQuery m idx CheckStateRole = Some QInvalid) /\
  (forall root n idx p value,
     mRoot m = Some root ->
     node m idx = Some p ->
     Node.deref root p = Some n ->
     exists prefix before,
       Node.path root true p = Some prefix /\
       setData m idx value CheckStateRole false =
         Some (callSetStaged m (startingWith (mDiff m) prefix) (toBool value),
               before ++ [dataChanged idx idx [CheckStateRole];
                          checkStateChanged idx value],
               true)).
Proof.
  intros Hflags. split.
  - intros [p |]; [| reflexivity].
    unfold data. destruct Hflags as [-> | ->]; simpl; [reflexivity |].
    rewrite orb_true_r. reflexivity.
  - intros root n idx p value Hroot Hnode Hn.
    destruct (path_total root true p n Hn) as [prefix Hpath].
    exists prefix.
    rewrite (setData_toggle m root n idx p prefix value _ Hroot Hnode Hn Hpath).
    unfold toggleSignals. rewrite app_assoc. eexists.
    split; [exact Hpath | reflexivity].
Qed.

End Unsupported.

(** ** The prefix test *)

Lemma prefix_refl (s : string) : String.prefix s s = true.
Proof.
  induction s as [| c s IH]; simpl; [reflexivity |].
  destruct (ascii_dec c c); [exact IH | congruence].
Qed.

Lemma prefix_append (p q s : string) :
  String.prefix (p ++ q) s = true -> String.prefix p s = true.
Proof.
  revert s. induction p as [| c p IH]; simpl; intros s H;
    [destruct s; reflexivity |].
  destruct s as [| d s]; [discriminate |]. simpl in *.
  destruct (ascii_dec c d); [apply IH; exact H | discriminate].
Qed.

(** The code selects at least the entries under the prefix segment-wise. *)
Lemma segmentPrefix_startsWith (path prefix : string) :
  segmentPrefix path prefix = true -> QString.startsWith path prefix = true.
Proof.
  unfold segmentPrefix, QString.startsWith. intros H.
  apply orb_true_iff in H. destruct H as [H | H].
  - apply String.eqb_eq in H. subst. apply prefix_refl.
  - eapply prefix_append. exact H.
Qed.

(** ** The claims on concrete models *)

Lemma scenarioTree_Built : Built "/repo" scenarioTree.
Proof.
  apply Built_addChild
    with (pathParts := QString.split "/" "docs/c.txt")
         (t := Node.mk "/repo"
                 [Node.mk "src" [Node.mk "a.txt" []; Node.mk "b.txt" []]]);
    [| reflexivity].
  apply Built_addChild
    with (pathParts := QString.split "/" "src/b.txt")
         (t := Node.mk "/repo" [Node.mk "src" [Node.mk "a.txt" []]]);
    [| reflexivity].
  apply Built_addChild
    with (pathParts := QString.split "/" "src/a.txt") (t := Node.mk "/repo" []);
    [| reflexivity].
  apply Built_root.
Qed.

Example scenario_setDiff :
  setDiff emptyModel scenarioDiff =
    Some (scenarioModel, [modelAboutToBeReset; modelReset]).
Proof. reflexivity. Qed.

(** The scenario of the spec (§8): all unstaged, [src] is unchecked; after
    [a.txt] is toggled to staged, [a.txt] is checked, [src] is partially
    checked and [docs] is still unchecked. *)
Example scenario_queries :
  let query m idx :=
    data (bridge := tableBridge) lowByte segmentPrefix noQuery m idx CheckStateRole in
  query scenarioModel (Some [0]) = Some (QCheck Unchecked) /\
  exists m' sigs,
    setData (bridge := tableBridge) scenarioModel (Some [0; 0]) 2 CheckStateRole false
      = Some (m', sigs, true) /\
    query m' (Some [0; 0]) = Some (QCheck Checked) /\
    query m' (Some [0]) = Some (QCheck PartiallyChecked) /\
    query m' (Some [1]) = Some (QCheck Unchecked).
Proof.
  split; [reflexivity |]. do 2 eexists. repeat split.
Qed.

(** C7.  In every tree met while the tree of a diff is built, from the
    fresh root on and after each insertion, no node has two children of
    the same name. *)
Theorem sibling_names_unique (workdir : string) (t : Node.t) :
  Built workdir t ->
  forall p n,
    Node.deref t p = Some n ->
    NoDup (map Node.name (Node.children n)).
Proof.
  intros Hb p n Hn.
  assert (Hu : uniqueSiblings n).
  { eapply descend_uniqueSiblings; [| exact Hn].
    eapply Built_uniqueSiblings. exact Hb. }
  destruct Hu as [nm cs Hnames _]. exact Hnames.
Qed.

Lemma sibling_names_unique_witness :
  NoDup (map Node.name [Node.mk "a.txt" []; Node.mk "b.txt" []]).
Proof.
  apply (sibling_names_unique "/repo" scenarioTree scenarioTree_Built [0]
           (Node.mk "src" [Node.mk "a.txt" []; Node.mk "b.txt" []])).
  reflexivity.
Defined.

(** C8, as the code has it.  In a tree built for the working directory
    [workdir], the full path of a node is the names from the root down to
    it joined with "/", and the first of these names is [workdir]; the
    relative path of a node other than the root is the same names without
    the root's, joined with "/"; the relative path of the root is its name,
    [workdir], like its full path. *)
Theorem path_joins_names_from_root (workdir : string) (root : Node.t)
        (p : Node.ptr) (ns : list string) :
  Built workdir root ->
  namesAlong root (rev p) = Some ns ->
  hd_error ns = Some workdir /\
  Node.path root false p = Some (QString.join "/" ns) /\
  Node.path root true p =
    Some (match p with
          | [] => workdir
          | _ :: _ => QString.join "/" (tl ns)
          end).
Proof.
  intros Hb Hns.
  destruct (namesAlong_shape _ _ _ Hns) as [_ Hhd].
  destruct (path_joins_names root p ns Hns) as [Hfull Hrel].
  rewrite (Built_name _ _ Hb) in Hhd, Hrel.
  auto.
Qed.

Lemma path_joins_names_from_root_witness :
  hd_error ["/repo"; "src"; "b.txt"] = Some "/repo" /\
  Node.path scenarioTree false [1; 0] = Some "/repo/src/b.txt" /\
  Node.path scenarioTree true [1; 0] = Some "src/b.txt".
Proof.
  apply (path_joins_names_from_root "/repo" scenarioTree [1; 0]
           ["/repo"; "src"; "b.txt"] scenarioTree_Built).
  reflexivity.
Defined.

(** C8 as stated fails at the root: its relative path is the working
    directory path, not the empty string. *)
Lemma root_relative_path_not_empty :
  ~ (forall workdir root,
       Built workdir root -> Node.path root true [] = Some "").
Proof.
  intros H. specialize (H "/repo" scenarioTree scenarioTree_Built).
  discriminate H.
Qed.

(** C4.  Inserting a path a second time does not leave the tree as it is:
    the second insertion finds the child of the first at every level, goes
    on with the index after the last part and aborts there.  Seen on the
    path "a" and on a diff that lists it twice. *)
Theorem insert_same_path_twice_aborts :
  Node.addChild (QString.split "/" "a") 0 (Node.mk "/repo" []) =
    Some (Node.mk "/repo" [Node.mk "a" []]) /\
  Node.addChild (QString.split "/" "a") 0 (Node.mk "/repo" [Node.mk "a" []]) =
    None /\
  setDiff emptyModel repeatedDiff = None.
Proof. repeat split. Qed.

(** The same at every path and every tree. *)
Lemma addChild_again (pathPart : list string) (i : nat) (this t' : Node.t) :
  Node.addChild pathPart i this = Some t' ->
  Node.addChild pathPart i t' = None.
Proof. unfold Node.addChild. apply addChildFrom_again. Qed.

(** Where every entry that starts with the node's relative path is under
    it segment-wise, the query answers as §4.2 of the spec says, over the
    entries under the node. *)
Lemma data_checkState_segment_safe {Idx : Type} {bridge : StagingBridge Idx}
      (statusChar : Z -> ascii) (containsPath : string -> string -> bool)
      (repoQuery : Role -> string -> string -> QVariant)
      (m : @Model Idx) (root : Node.t) (p : Node.ptr) (prefix : string) :
  isValid (mDiff m) = true ->
  isStatusDiff (mDiff m) = true ->
  mRoot m = Some root ->
  Node.path root true p = Some prefix ->
  (forall path, In path (names (mDiff m)) ->
                QString.startsWith path prefix = true ->
                segmentPrefix path prefix = true) ->
  data statusChar containsPath repoQuery m (Some p) CheckStateRole =
    Some (specCheckState (mDiff m) prefix).
Proof.
  intros Hvalid Hstatus Hroot Hpath Hsafe.
  unfold data. rewrite Hvalid, Hstatus, Hroot. cbn [negb orb bind].
  rewrite Hpath. cbn [bind]. rewrite checkState_triState.
  unfold specCheckState, segmentMatches, startingWith.
  rewrite (filter_ext_in (fun path => QString.startsWith path prefix)
                         (fun path => segmentPrefix path prefix)
                         (names (mDiff m))); [reflexivity |].
  intros path Hin.
  destruct (QString.startsWith path prefix) eqn:Hstart.
  - symmetry. apply Hsafe; assumption.
  - destruct (segmentPrefix path prefix) eqn:Hseg; [| reflexivity].
    apply segmentPrefix_startsWith in Hseg. congruence.
Qed.

(** C1.  The query does not answer over the entries matched at a segment
    boundary: its loop collects with [startsWith], so for the file "ab" next
    to the folder "abc" it also counts "abc/x".  With the entries "ab" and
    "abc/x", the only entry under "ab" is "ab" itself; yet the query on
    "ab" returns [PartiallyChecked] when only "abc/x" is staged (the state
    of the matched entry is [Unchecked]), when only "ab" is staged (the
    state is [Checked]), and when "abc/x" is partially staged (the state is
    [Unchecked]). *)
Theorem checkState_counts_entry_beside_the_node :
  let query ix :=
    data (bridge := tableBridge) lowByte segmentPrefix noQuery
         (prefixModel ix) (Some [0]) CheckStateRole in
  let stated ix :=
    specCheckState (bridge := tableBridge) (mDiff (prefixModel ix)) "ab" in
  Node.path prefixTree true [0] = Some "ab" /\
  segmentMatches prefixDiff "ab" = ["ab"] /\
  startingWith prefixDiff "ab" = ["ab"; "abc/x"] /\
  stated [("abc/x", Staged)] = QCheck Unchecked /\
  query [("abc/x", Staged)] = Some (QCheck PartiallyChecked) /\
  stated [("ab", Staged)] = QCheck Checked /\
  query [("ab", Staged)] = Some (QCheck PartiallyChecked) /\
  stated [("abc/x", PartiallyStaged)] = QCheck Unchecked /\
  query [("abc/x", PartiallyStaged)] = Some (QCheck PartiallyChecked).
Proof. repeat split. Qed.

(** On the scenario, where no name begins another, the query answers as
    stated. *)
Example scenario_checkState_as_stated :
  data (bridge := tableBridge) lowByte segmentPrefix noQuery
       scenarioModel (Some [0]) CheckStateRole =
    Some (specCheckState (bridge := tableBridge) (mDiff scenarioModel) "src").
Proof.
  apply (data_checkState_segment_safe (bridge := tableBridge)
           lowByte segmentPrefix noQuery scenarioModel scenarioTree [0] "src");
    try reflexivity.
  intros path [<- | [<- | [<- | []]]] Hstart; (reflexivity || discriminate Hstart).
Qed.

(** C2.  The selection is by [startsWith], character-wise: for the node
    "ab" of a diff with the entries "ab" and "abc/x", both entries are
    selected, by the query and by the toggle, though "ab" is not a prefix
    of "abc/x" at a segment boundary.  Toggling "ab" stages "abc/x" as
    well, and with only "abc/x" staged the file "ab" reads as partially
    checked. *)
Theorem startsWith_crosses_segment_boundary :
  setDiff emptyModel prefixDiff =
    Some (prefixModel [], [modelAboutToBeReset; modelReset]) /\
  Node.path prefixTree true [0] = Some "ab" /\
  segmentPrefix "abc/x" "ab" = false /\
  startingWith prefixDiff "ab" = ["ab"; "abc/x"] /\
  setData (bridge := tableBridge) (prefixModel []) (Some [0]) 2 CheckStateRole false =
    Some (prefixModel [("ab", Staged); ("abc/x", Staged)],
          [dataChanged (Some [0]) (Some [0]) [CheckStateRole];
           checkStateChanged (Some [0]) 2],
          true) /\
  data (bridge := tableBridge) lowByte segmentPrefix noQuery
       (prefixModel [("abc/x", Staged)]) (Some [0]) CheckStateRole =
    Some (QCheck PartiallyChecked).
Proof. repeat split. Qed.

(** ** Witnesses and counterexamples *)

Lemma data_checkState_tristate_witness :
  data (bridge := tableBridge) lowByte segmentPrefix noQuery
       scenarioModel (Some [0]) CheckStateRole =
    Some (QCheck (triState [Unstaged; Unstaged])).
Proof.
  apply (data_checkState_tristate (bridge := tableBridge)
           lowByte segmentPrefix noQuery scenarioModel scenarioTree [0] "src");
    reflexivity.
Defined.

Lemma data_status_summary_witness :
  data (bridge := tableBridge) lowByte segmentPrefix noQuery
       scenarioModel (Some [0]) StatusRole = Some (QStr "M") /\
  NoDup (firstSeen ["M"; "M"]%char) /\
  (forall c, In c (firstSeen ["M"; "M"]%char) <-> In c ["M"; "M"]%char).
Proof.
  apply (data_status_summary (bridge := tableBridge)
           lowByte segmentPrefix noQuery scenarioModel scenarioTree [0] "src");
    reflexivity.
Defined.

Lemma setDiff_invalid_keeps_model_witness :
  setDiff scenarioModel (mkDiff false true [("x", 65%Z)] []) =
    Some (scenarioModel, [modelAboutToBeReset; modelReset]).
Proof.
  apply (proj1 (setDiff_invalid_keeps_model scenarioModel
                  (mkDiff false true [("x", 65%Z)] []))).
  reflexivity.
Defined.

Lemma setData_notification_order_witness :
  exists m',
    setData (bridge := tableBridge) scenarioModel (Some [1; 0]) 2 CheckStateRole false =
      Some (m',
            [dataChanged (Some [0]) (Some [0]) [CheckStateRole];
             dataChanged (Some [1; 0]) (Some [1; 0]) [CheckStateRole];
             checkStateChanged (Some [1; 0]) 2],
            true).
Proof.
  apply (setData_notification_order (bridge := tableBridge) scenarioModel
           scenarioTree (Node.mk "b.txt" []) (Some [1; 0]) [1; 0] 2 false);
    reflexivity.
Defined.

Lemma setData_drops_setStaged_result_witness :
  setData (bridge := brokenBridge) scenarioModel (Some [0; 0]) 2 CheckStateRole true =
    Some (scenarioModel,
          [dataChanged (Some [0]) (Some [0]) [CheckStateRole];
           dataChanged (Some [0; 0]) (Some [0; 0]) [CheckStateRole];
           checkStateChanged (Some [0; 0]) 2],
          true).
Proof.
  apply (setData_drops_setStaged_result (bridge := brokenBridge)
           scenarioModel scenarioModel (Some [0; 0]) 2 _ true).
  reflexivity.
Defined.

(** C3 as stated fails: with an index whose [setStaged] fails, the toggle
    of [src/a.txt] does not report failure with no signal emitted. *)
Lemma setData_failure_is_not_reported :
  snd (setStaged (StagingBridge := brokenBridge)
         (index_ scenarioDiff) ["src/a.txt"] true) = false /\
  ~ (exists m',
       setData (bridge := brokenBridge) scenarioModel (Some [0; 0]) 2
               CheckStateRole false = Some (m', [], false)).
Proof.
  split; [reflexivity |]. intros [m' H]. discriminate H.
Qed.

Lemma unsupported_diff_query_and_toggle_witness :
  data (bridge := tableBridge) lowByte segmentPrefix noQuery
       nonStatusModel (Some [0; 0]) CheckStateRole = Some QInvalid /\
  exists prefix before,
    Node.path scenarioTree true [0; 0] = Some prefix /\
    setData (bridge := tableBridge) nonStatusModel (Some [0; 0]) 2
            CheckStateRole false =
      Some (callSetStaged (bridge := tableBridge) nonStatusModel
              (startingWith (mDiff nonStatusModel) prefix) (toBool 2),
            before ++ [dataChanged (Some [0; 0]) (Some [0; 0]) [CheckStateRole];
                       checkStateChanged (Some [0; 0]) 2],
            true).
Proof.
  destruct (unsupported_diff_query_and_toggle (bridge := tableBridge)
              lowByte segmentPrefix noQuery nonStatusModel
              (or_intror eq_refl)) as [Hquery Htoggle].
  split; [apply Hquery |].
  apply (Htoggle scenarioTree (Node.mk "a.txt" []) (Some [0; 0]) [0; 0] 2%Z);
    reflexivity.
Defined.

(** C5 as stated fails: with a diff that is not a status diff, the toggle
    of [src/a.txt] is not a no-op. *)
Lemma setData_not_refused_without_staging :
  isStatusDiff (mDiff nonStatusModel) = false /\
  ~ (exists ok,
       setData (bridge := tableBridge) nonStatusModel (Some [0; 0]) 2
               CheckStateRole false = Some (nonStatusModel, [], ok)).
Proof.
  split; [reflexivity |]. intros [ok H]. discriminate H.
Qed.

(** * Further properties of the tree and of the model *)

(** ** What an insertion does to the children of a node *)

Lemma addChildFrom_cons_inv (seg : string) (rest : list string) (this t' : Node.t) :
  Node.addChildFrom (seg :: rest) this = Some t' ->
  (exists pre c post c',
     Node.children this = pre ++ c :: post /\
     Forall (fun d => String.eqb (Node.name d) seg = false) pre /\
     Node.name c = seg /\
     Node.addChildFrom rest c = Some c' /\
     t' = Node.mk (Node.name this) (pre ++ c' :: post)) \/
  (Forall (fun d => String.eqb (Node.name d) seg = false) (Node.children this) /\
   exists n',
     Node.name n' = seg /\
     (rest = [] /\ n' = Node.mk seg [] \/
      rest <> [] /\ Node.addChildFrom rest (Node.mk seg []) = Some n') /\
     t' = Node.mk (Node.name this) (Node.children this ++ [n'])).
Proof.
  simpl. intros H.
  destruct (Node.visit_first _ _ (Node.children this)) as [r |] eqn:Hvisit.
  - left. apply visit_first_found in Hvisit.
    destruct Hvisit as (pre & c & post & Hcs & Hpre & Hc & ->).
    inv_bind H. injection H as <-. inv_bind Hx. injection Hx as <-.
    exists pre, c, post, x0. apply String.eqb_eq in Hc. auto.
  - right. apply visit_first_miss in Hvisit. split; [exact Hvisit |].
    inv_bind H. injection H as <-. exists x.
    destruct rest as [| seg' rest'].
    + injection Hx as <-. repeat split. left. split; reflexivity.
    + change (Nat.ltb 0 (length (seg' :: rest'))) with true in Hx. cbv iota in Hx.
      repeat split; [apply (addChildFrom_name _ _ _ Hx) |].
      right. split; [discriminate | exact Hx].
Qed.

Lemma nth_error_middle {A : Type} (pre post : list A) (c : A) :
  nth_error (pre ++ c :: post) (length pre) = Some c.
Proof. rewrite nth_error_app2, Nat.sub_diag by lia. reflexivity. Qed.

Lemma nth_error_beside {A : Type} (pre post : list A) (c c' : A) (r : nat) :
  r <> length pre ->
  nth_error (pre ++ c' :: post) r = nth_error (pre ++ c :: post) r.
Proof.
  intros Hr. destruct (Nat.lt_ge_cases r (length pre)) as [Hlt | Hge].
  - rewrite !nth_error_app1 by exact Hlt. reflexivity.
  - rewrite !nth_error_app2 by exact Hge.
    destruct (r - length pre) as [| k] eqn:Hk; [lia | reflexivity].
Qed.

(** The names along rows that were there before an insertion are there
    after it, under the same rows. *)
Lemma addChildFrom_keeps (parts : list string) :
  forall this t',
    Node.addChildFrom parts this = Some t' ->
    forall rows ns,
      namesAlong this rows = Some ns -> namesAlong t' rows = Some ns.
Proof.
  induction parts as [| seg rest IH]; intros this t' Hadd rows ns Hns;
    [discriminate |].
  pose proof (addChildFrom_name _ _ _ Hadd) as Hname.
  destruct rows as [| r rows].
  - simpl in *. congruence.
  - simpl in Hns. inv_bind Hns. inv_bind Hns. injection Hns as <-.
    rename x into c0, x0 into ns0.
    apply addChildFrom_cons_inv in Hadd.
    destruct Hadd as [(pre & c & post & c' & Hcs & _ & _ & Hc' & ->)
                     | (_ & n' & _ & _ & ->)]; simpl.
    + rewrite Hcs in Hx.
      destruct (Nat.eq_dec r (length pre)) as [-> | Hr].
      * rewrite nth_error_middle in *. injection Hx as <-. simpl.
        rewrite (IH _ _ Hc' _ _ Hx0). reflexivity.
      * rewrite (nth_error_beside pre post c c' r Hr), Hx. simpl.
        rewrite Hx0. reflexivity.
    + rewrite nth_error_app1, Hx
        by (apply nth_error_Some; congruence).
      simpl. rewrite Hx0. reflexivity.
Qed.

Lemma namesAlong_last (rows : list nat) :
  forall t ns n,
    namesAlong t rows = Some ns ->
    Node.descend t rows = Some n ->
    last ns "" = Node.name n.
Proof.
  induction rows as [| r rows IH]; simpl; intros t ns n Hns Hn.
  - injection Hns as <-. injection Hn as <-. reflexivity.
  - destruct (nth_error (Node.children t) r) as [c |]; [| discriminate].
    simpl in Hns. inv_bind Hns. injection Hns as <-.
    destruct (namesAlong_shape _ _ _ Hx) as [Hlen _].
    rewrite <- (IH c x n Hx Hn).
    destruct x; [discriminate | reflexivity].
Qed.

Lemma addChildFrom_keeps_node (parts : list string) (this t' : Node.t)
      (rows : list nat) (n : Node.t) :
  Node.addChildFrom parts this = Some t' ->
  Node.descend this rows = Some n ->
  exists n', Node.descend t' rows = Some n' /\ Node.name n' = Node.name n.
Proof.
  intros Hadd Hn.
  destruct (proj2 (namesAlong_descend rows this) (ex_intro _ n Hn)) as [ns Hns].
  pose proof (addChildFrom_keeps _ _ _ Hadd _ _ Hns) as Hns'.
  destruct (proj1 (namesAlong_descend rows t') (ex_intro _ ns Hns')) as [n' Hn'].
  exists n'. split; [exact Hn' |].
  rewrite <- (namesAlong_last _ _ _ _ Hns Hn), <- (namesAlong_last _ _ _ _ Hns' Hn').
  reflexivity.
Qed.

(** X1.  An insertion that goes through leaves every node that was in the
    tree where it was: a pointer that reached a node reaches a node of the
    same name afterwards, with the same full path and the same relative
    path. *)
Theorem addChild_keeps_nodes (pathPart : list string) (i : nat)
        (this t' : Node.t) (p : Node.ptr) (n : Node.t) :
  Node.addChild pathPart i this = Some t' ->
  Node.deref this p = Some n ->
  exists n',
    Node.deref t' p = Some n' /\
    Node.name n' = Node.name n /\
    Node.path t' false p = Node.path this false p /\
    Node.path t' true p = Node.path this true p.
Proof.
  unfold Node.addChild, Node.deref. intros Hadd Hn.
  destruct (addChildFrom_keeps_node _ _ _ _ _ Hadd Hn) as [n' [Hn' Hname]].
  exists n'. split; [exact Hn' | split; [exact Hname |]].
  destruct (proj2 (namesAlong_descend (rev p) this) (ex_intro _ n Hn)) as [ns Hns].
  pose proof (addChildFrom_keeps _ _ _ Hadd _ _ Hns) as Hns'.
  destruct (path_joins_names this p ns Hns) as [Hfull Hrel].
  destruct (path_joins_names t' p ns Hns') as [Hfull' Hrel'].
  rewrite Hfull, Hfull', Hrel, Hrel', (addChildFrom_name _ _ _ Hadd).
  split; reflexivity.
Qed.

Lemma addChild_keeps_nodes_witness :
  exists n',
    Node.deref scenarioTree [0; 0] = Some n' /\
    Node.name n' = "a.txt" /\
    Node.path scenarioTree false [0; 0] = Some "/repo/src/a.txt" /\
    Node.path scenarioTree true [0; 0] = Some "src/a.txt".
Proof.
  apply (addChild_keeps_nodes (QString.split "/" "docs/c.txt") 0
           (Node.mk "/repo"
              [Node.mk "src" [Node.mk "a.txt" []; Node.mk "b.txt" []]])
           scenarioTree [0; 0] (Node.mk "a.txt" []));
    reflexivity.
Defined.

(** X2.  An insertion aborts exactly when the parts from the index on lead
    to a node that is already in the tree, through the first child of each
    name; in particular when no part is left. *)
Theorem addChild_aborts_iff (pathPart : list string) (i : nat) (this : Node.t) :
  Node.addChild pathPart i this = None <->
  present (skipn i pathPart) this = true.
Proof.
  unfold Node.addChild, present. rewrite addChildFrom_aborts_iff.
  destruct (lookupPath _ this) as [n |]; split; eauto; try discriminate.
  intros [n Hn]. discriminate.
Qed.

(** ** The nodes after an insertion *)

Lemma find_beside {A : Type} (hit : A -> bool) (pre post : list A) (c c' : A) :
  hit c = false -> hit c' = false ->
  find hit (pre ++ c' :: post) = find hit (pre ++ c :: post).
Proof.
  intros Hc Hc'. induction pre as [| d pre IH]; simpl.
  - rewrite Hc, Hc'. reflexivity.
  - destruct (hit d); [reflexivity | exact IH].
Qed.

Lemma find_app_miss {A : Type} (hit : A -> bool) (cs : list A) (c : A) :
  hit c = false -> find hit (cs ++ [c]) = find hit cs.
Proof.
  intros Hc. induction cs as [| d cs IH]; simpl.
  - rewrite Hc. reflexivity.
  - destruct (hit d); [reflexivity | exact IH].
Qed.

Lemma present_leaf (q : list string) (nm : string) :
  present q (Node.mk nm []) = match q with [] => true | _ :: _ => false end.
Proof. destruct q; reflexivity. Qed.

Lemma isPrefixOf_nil (q : list string) :
  isPrefixOf q [] = match q with [] => true | _ :: _ => false end.
Proof. destruct q; reflexivity. Qed.

Lemma present_after_insertion (parts : list string) :
  forall this t',
    Node.addChildFrom parts this = Some t' ->
    forall q, present q t' = present q this || isPrefixOf q parts.
Proof.
  induction parts as [| seg rest IH]; intros this t' Hadd q; [discriminate |].
  destruct q as [| s q']; [reflexivity |].
  apply addChildFrom_cons_inv in Hadd.
  destruct Hadd as [(pre & c & post & c' & Hcs & Hpre & Hc & Hc' & ->)
                   | (Hmiss & n' & Hn' & Hrest & ->)];
    unfold present; simpl.
  - rewrite Hcs.
    pose proof (addChildFrom_name _ _ _ Hc') as Hname'. rewrite Hc in Hname'.
    destruct (String.eqb_spec s seg) as [-> | Hne].
    + rewrite !find_first_hit; try assumption;
        try (rewrite ?Hname', ?Hc; apply String.eqb_refl).
      apply (IH _ _ Hc').
    + rewrite (find_beside _ pre post c c');
        [rewrite orb_false_r; reflexivity | |];
        rewrite ?Hname', ?Hc; apply String.eqb_neq; congruence.
  - destruct (String.eqb_spec s seg) as [-> | Hne].
    + rewrite (find_first_hit _ (Node.children this) [] n' Hmiss)
        by (rewrite Hn'; apply String.eqb_refl).
      rewrite (find_all_miss _ _ Hmiss). simpl.
      destruct Hrest as [[-> ->] | [Hne Hadd]].
      * fold (present q' (Node.mk seg [])).
        rewrite present_leaf, isPrefixOf_nil. reflexivity.
      * fold (present q' n'). rewrite (IH _ _ Hadd), present_leaf.
        destruct q'; reflexivity.
    + rewrite find_app_miss
        by (rewrite Hn'; apply String.eqb_neq; congruence).
      rewrite orb_false_r. reflexivity.
Qed.



(** ** When the tree of a diff can be built *)

Lemma createDiffTreeLoop_insertable (paths : list string) :
  forall root seen,
    (forall q, present q root = isNil q || existsb (isPrefixOf q) seen) ->
    match createDiffTreeLoop paths root with Some _ => true | None => false end =
      insertable seen (map (QString.split "/") paths).
Proof.
  induction paths as [| path rest IH]; intros root seen Hseen; [reflexivity |].
  simpl. unfold Node.addChild. simpl skipn.
  set (parts := QString.split "/" path).
  destruct (Node.addChildFrom parts root) as [root' |] eqn:Hadd; simpl.
  - assert (Hnew : present parts root = false).
    { destruct (present parts root) eqn:Hp; [| reflexivity].
      assert (Habort : Node.addChildFrom parts root = None).
      { apply addChildFrom_aborts_iff. unfold present in Hp.
        destruct (lookupPath parts root); [eauto | discriminate]. }
      congruence. }
    rewrite Hseen in Hnew. apply orb_false_iff in Hnew.
    destruct Hnew as [Hnil Hold]. rewrite Hold. simpl.
    destruct parts as [| seg parts'] eqn:Hparts; [discriminate |].
    rewrite <- Hparts in *.
    apply IH. intros q.
    rewrite (present_after_insertion _ _ _ Hadd), Hseen. simpl.
    destruct (isNil q), (isPrefixOf q parts), (existsb (isPrefixOf q) seen);
      reflexivity.
  - apply addChildFrom_aborts_iff in Hadd. destruct Hadd as [n Hn].
    assert (Hp : present parts root = true) by (unfold present; rewrite Hn; reflexivity).
    rewrite Hseen in Hp.
    destruct (existsb (isPrefixOf parts) seen); [reflexivity |].
    rewrite orb_false_r in Hp. destruct parts; [reflexivity | discriminate].
Qed.

(** X4.  [setDiff] with a valid diff builds the tree exactly when no path
    of the diff is, part by part, the beginning of a path listed before it
    (a repeated path, or the folder of an earlier file); otherwise the
    construction aborts. *)
Theorem setDiff_builds_iff_insertable {Idx : Type} (m : @Model Idx) (diff : Diff Idx) :
  isValid diff = true ->
  (exists m' sigs, setDiff m diff = Some (m', sigs)) <->
  insertable [] (map (QString.split "/") (names diff)) = true.
Proof.
  intros Hvalid. rewrite setDiff_cases, Hvalid.
  rewrite <- (createDiffTreeLoop_insertable (names diff) (Node.mk (mRepo m) []) [])
    by (intros q; rewrite present_leaf; destruct q; reflexivity).
  destruct (createDiffTreeLoop _ _) as [root' |]; simpl; split; eauto;
    try discriminate.
  intros (m' & sigs & H). discriminate.
Qed.

Lemma setDiff_builds_iff_insertable_witness :
  (exists m' sigs, setDiff emptyModel scenarioDiff = Some (m', sigs)) <->
  insertable [] (map (QString.split "/") (names scenarioDiff)) = true.
Proof.
  apply (setDiff_builds_iff_insertable emptyModel scenarioDiff). reflexivity.
Defined.

(** ** Splitting and joining *)

Lemma concat_cons_char (sep : string) (c : ascii) (w : string) (ws : list string) :
  String.concat sep (String c w :: ws) = String c (String.concat sep (w :: ws)).
Proof. destruct ws; reflexivity. Qed.

(** Joining the parts of a path gives the path back. *)
Lemma join_split (sep : ascii) (s : string) :
  QString.join (String sep "") (QString.split sep s) = s.
Proof.
  unfold QString.join.
  induction s as [| c rest IH]; [reflexivity |]. simpl.
  destruct (Ascii.eqb_spec c sep) as [-> | Hne].
  - pose proof (split_not_nil sep rest) as Hnil.
    destruct (QString.split sep rest) as [| w ws]; [congruence |].
    change (String.concat (String sep "") ("" :: w :: ws))
      with (String sep (String.concat (String sep "") (w :: ws))).
    rewrite IH. reflexivity.
  - destruct (QString.split sep rest) as [| w ws].
    + simpl in IH. subst rest. reflexivity.
    + rewrite concat_cons_char, IH. reflexivity.
Qed.

Lemma split_no_sep (sep : ascii) (s : string) :
  Forall (fun w => QString.contains w sep = false) (QString.split sep s).
Proof.
  induction s as [| c rest IH]; simpl.
  - constructor; [reflexivity | constructor].
  - destruct (Ascii.eqb c sep) eqn:Hc.
    + constructor; [reflexivity | exact IH].
    + destruct (QString.split sep rest) as [| w ws].
      * constructor; [simpl; rewrite Hc; reflexivity | constructor].
      * inversion IH; subst.
        constructor; [simpl; rewrite Hc; assumption | assumption].
Qed.

Lemma split_word_sep (sep : ascii) (w rest : string) :
  QString.contains w sep = false ->
  QString.split sep (w ++ String sep rest) = w :: QString.split sep rest.
Proof.
  induction w as [| c w IH]; simpl; intros Hw.
  - rewrite Ascii.eqb_refl. reflexivity.
  - apply orb_false_iff in Hw. destruct Hw as [Hc Hw].
    rewrite Hc, (IH Hw). reflexivity.
Qed.

Lemma split_word (sep : ascii) (w : string) :
  QString.contains w sep = false -> QString.split sep w = [w].
Proof.
  induction w as [| c w IH]; simpl; intros Hw; [reflexivity |].
  apply orb_false_iff in Hw. destruct Hw as [Hc Hw].
  rewrite Hc, (IH Hw). reflexivity.
Qed.

(** Splitting the join of names without the separator gives the names. *)
Lemma split_join (sep : ascii) (parts : list string) :
  parts <> [] ->
  Forall (fun w => QString.contains w sep = false) parts ->
  QString.split sep (QString.join (String sep "") parts) = parts.
Proof.
  unfold QString.join.
  induction parts as [| w parts IH]; intros Hne Hparts; [congruence |].
  inversion Hparts as [| w' parts' Hw Hrest]; subst.
  destruct parts as [| w2 parts].
  - simpl. apply split_word, Hw.
  - change (String.concat (String sep "") (w :: w2 :: parts))
      with (w ++ String sep (String.concat (String sep "") (w2 :: parts)))%string.
    rewrite (split_word_sep sep w _ Hw), IH; [reflexivity | discriminate | exact Hrest].
Qed.

Lemma join_app (sep : string) (q r : list string) :
  q <> [] -> r <> [] ->
  QString.join sep (q ++ r) =
    (QString.join sep q ++ sep ++ QString.join sep r)%string.
Proof.
  unfold QString.join. intros Hq Hr.
  induction q as [| a q IH]; [congruence |].
  destruct q as [| b q].
  - simpl. destruct r; [congruence | reflexivity].
  - change (String.concat sep ((a :: b :: q) ++ r))
      with (a ++ sep ++ String.concat sep ((b :: q) ++ r))%string.
    rewrite IH by discriminate.
    change (String.concat sep (a :: b :: q))
      with (a ++ sep ++ String.concat sep (b :: q))%string.
    rewrite !append_assoc. reflexivity.
Qed.

Lemma prefix_app (a b : string) : String.prefix a (a ++ b) = true.
Proof.
  induction a as [| c a IH]; simpl; [destruct b; reflexivity |].
  destruct (ascii_dec c c); [exact IH | congruence].
Qed.

Lemma isPrefixOf_app (q parts : list string) :
  isPrefixOf q parts = true <-> exists r, parts = q ++ r.
Proof.
  revert parts. induction q as [| a q IH]; intros parts; simpl.
  - split; [eauto | reflexivity].
  - destruct parts as [| b parts].
    + split; [discriminate | intros [r Hr]; discriminate].
    + rewrite andb_true_iff, String.eqb_eq, IH. split.
      * intros [-> [r ->]]. eauto.
      * intros [r Hr]. injection Hr as -> ->. eauto.
Qed.

(** The relative path made of the first parts of a path begins the path
    and ends where one of its segments ends. *)
Lemma segmentPrefix_join (q r : list string) :
  q <> [] ->
  segmentPrefix (QString.join "/" (q ++ r)) (QString.join "/" q) = true.
Proof.
  intros Hq. unfold segmentPrefix.
  destruct r as [| b r].
  - rewrite app_nil_r, String.eqb_refl. reflexivity.
  - rewrite join_app by (assumption || discriminate).
    unfold QString.startsWith.
    rewrite <- append_assoc, prefix_app. apply orb_true_r.
Qed.

(** ** The items of the tree and the entries of the diff *)

(** The inserted parts name a node below the node inserted into. *)
Lemma addChildFrom_inserted (parts : list string) :
  forall this t',
    Node.addChildFrom parts this = Some t' ->
    exists rows,
      rows <> [] /\ namesAlong t' rows = Some (Node.name this :: parts).
Proof.
  induction parts as [| seg rest IH]; intros this t' Hadd; [discriminate |].
  apply addChildFrom_cons_inv in Hadd.
  destruct Hadd as [(pre & c & post & c' & Hcs & _ & Hc & Hc' & ->)
                   | (_ & n' & Hn' & Hrest & ->)].
  - destruct rest as [| seg' rest']; [discriminate |].
    destruct (IH _ _ Hc') as (rows & _ & Hrows).
    exists (length pre :: rows). split; [discriminate |].
    simpl. rewrite nth_error_middle. simpl. rewrite Hrows, Hc. reflexivity.
  - destruct Hrest as [[-> ->] | [Hne Hadd]].
    + exists [length (Node.children this)]. split; [discriminate |].
      simpl. rewrite nth_error_middle. reflexivity.
    + destruct (IH _ _ Hadd) as (rows & _ & Hrows).
      exists (length (Node.children this) :: rows). split; [discriminate |].
      simpl. rewrite nth_error_middle. simpl. rewrite Hrows. reflexivity.
Qed.

Lemma namesAlong_leaf (nm : string) (rows : list nat) (ns : list string) :
  namesAlong (Node.mk nm []) rows = Some ns -> rows = [] /\ ns = [nm].
Proof.
  destruct rows as [| [| r] rows]; simpl; intros H; try discriminate.
  injection H as <-. split; reflexivity.
Qed.

(** The names along rows after an insertion were there before it, or
    begin the names of the inserted parts. *)
Lemma addChildFrom_new_or_old (parts : list string) :
  forall this t',
    Node.addChildFrom parts this = Some t' ->
    forall rows ns,
      namesAlong t' rows = Some ns ->
      namesAlong this rows = Some ns \/
      exists r, Node.name this :: parts = ns ++ r.
Proof.
  induction parts as [| seg rest IH]; intros this t' Hadd rows ns Hns;
    [discriminate |].
  pose proof (addChildFrom_name _ _ _ Hadd) as Hname.
  destruct rows as [| r rows].
  - left. simpl in *. congruence.
  - simpl in Hns. inv_bind Hns. inv_bind Hns. injection Hns as <-.
    rename x into c0, x0 into ns0. rewrite Hname.
    apply addChildFrom_cons_inv in Hadd.
    destruct Hadd as [(pre & c & post & c' & Hcs & _ & Hc & Hc' & ->)
                     | (_ & n' & Hn' & Hrest & ->)]; simpl in Hx.
    + destruct (Nat.eq_dec r (length pre)) as [-> | Hr].
      * rewrite nth_error_middle in Hx. injection Hx as <-.
        destruct (IH _ _ Hc' _ _ Hx0) as [Hold | [r' Hr']].
        -- left. simpl. rewrite Hcs, nth_error_middle. simpl.
           rewrite Hold. reflexivity.
        -- right. exists r'. rewrite Hc in Hr'. simpl. rewrite <- Hr'. reflexivity.
      * left. simpl.
        rewrite (nth_error_beside pre post c c' r Hr), <- Hcs in Hx.
        rewrite Hx. simpl. rewrite Hx0. reflexivity.
    + destruct (Nat.eq_dec r (length (Node.children this))) as [-> | Hr].
      * rewrite nth_error_middle in Hx. injection Hx as <-.
        right.
        destruct Hrest as [[-> ->] | [Hne Hadd]].
        -- destruct (namesAlong_leaf _ _ _ Hx0) as [-> ->].
           exists []. reflexivity.
        -- destruct (IH _ _ Hadd _ _ Hx0) as [Hold | [r' Hr']].
           ++ destruct (namesAlong_leaf _ _ _ Hold) as [-> ->].
              exists rest. reflexivity.
           ++ exists r'. simpl in Hr'. simpl. rewrite <- Hr'. reflexivity.
      * left. simpl.
        assert (Hlt : r < length (Node.children this)).
        { assert (Hsome : nth_error (Node.children this ++ [n']) r <> None)
            by congruence.
          apply nth_error_Some in Hsome. rewrite length_app in Hsome.
          simpl in Hsome. lia. }
        rewrite nth_error_app1 in Hx by exact Hlt.
        rewrite Hx. simpl. rewrite Hx0. reflexivity.
Qed.

Lemma createDiffTreeLoop_name (paths : list string) :
  forall root t,
    createDiffTreeLoop paths root = Some t -> Node.name t = Node.name root.
Proof.
  induction paths as [| path rest IH]; simpl; intros root t H.
  - injection H as <-. reflexivity.
  - inv_bind H. rewrite (IH _ _ H). apply (addChildFrom_name _ _ _ Hx).
Qed.

Lemma createDiffTreeLoop_keeps (paths : list string) :
  forall root t,
    createDiffTreeLoop paths root = Some t ->
    forall rows ns,
      namesAlong root rows = Some ns -> namesAlong t rows = Some ns.
Proof.
  induction paths as [| path rest IH]; simpl; intros root t H rows ns Hns.
  - injection H as <-. exact Hns.
  - inv_bind H. apply (IH _ _ H).
    apply (addChildFrom_keeps _ _ _ Hx). exact Hns.
Qed.

(** Every path of the loop names a node of the tree it builds. *)
Lemma createDiffTreeLoop_entries (paths : list string) :
  forall root t path,
    createDiffTreeLoop paths root = Some t ->
    In path paths ->
    exists rows,
      rows <> [] /\
      namesAlong t rows = Some (Node.name root :: QString.split "/" path).
Proof.
  induction paths as [| path' rest IH]; simpl; intros root t path H Hin;
    [contradiction |].
  inv_bind H. rename x into root'.
  destruct Hin as [-> | Hin].
  - destruct (addChildFrom_inserted _ _ _ Hx) as (rows & Hne & Hrows).
    exists rows. split; [exact Hne |].
    apply (createDiffTreeLoop_keeps _ _ _ H). exact Hrows.
  - destruct (IH _ _ _ H Hin) as (rows & Hne & Hrows).
    exists rows. split; [exact Hne |].
    rewrite Hrows. f_equal. f_equal. apply (addChildFrom_name _ _ _ Hx).
Qed.

(** Every node of the tree the loop builds was in the tree it started
    from, or is named by the first parts of one of the paths. *)
Lemma createDiffTreeLoop_covered (paths : list string) :
  forall root t rows nm q,
    createDiffTreeLoop paths root = Some t ->
    namesAlong t rows = Some (nm :: q) ->
    namesAlong root rows = Some (nm :: q) \/
    exists path r, In path paths /\ QString.split "/" path = q ++ r.
Proof.
  induction paths as [| path rest IH]; simpl; intros root t rows nm q H Hns.
  - injection H as <-. left. exact Hns.
  - inv_bind H. rename x into root'.
    destruct (IH _ _ _ _ _ H Hns) as [Hold | (path' & r & Hin & Hsplit)].
    + destruct (addChildFrom_new_or_old _ _ _ Hx _ _ Hold) as [Hroot | [r Hr]].
      * left. exact Hroot.
      * right. exists path, r. split; [left; reflexivity |].
        unfold Node.addChild in Hx. simpl in Hr. injection Hr as _ Hr. exact Hr.
    + right. exists path', r. split; [right; exact Hin | exact Hsplit].
Qed.

(** Under unique sibling names the names along the rows tell the rows. *)
Lemma namesAlong_inj (rows1 : list nat) :
  forall t rows2 ns,
    uniqueSiblings t ->
    namesAlong t rows1 = Some ns ->
    namesAlong t rows2 = Some ns ->
    rows1 = rows2.
Proof.
  induction rows1 as [| r1 rows1 IH]; intros t rows2 ns Hu H1 H2.
  - destruct (namesAlong_shape _ _ _ H1) as [Hlen1 _].
    destruct (namesAlong_shape _ _ _ H2) as [Hlen2 _].
    destruct rows2; [reflexivity | simpl in *; lia].
  - destruct (namesAlong_shape _ _ _ H1) as [Hlen1 _].
    destruct (namesAlong_shape _ _ _ H2) as [Hlen2 _].
    destruct rows2 as [| r2 rows2]; [simpl in *; lia |].
    simpl in H1, H2.
    inv_bind H1. inv_bind H1. injection H1 as <-.
    inv_bind H2. inv_bind H2. injection H2 as H2.
    rename x into c1, x0 into ns1, x1 into c2, x2 into ns2. subst ns2.
    destruct (namesAlong_shape _ _ _ Hx0) as [_ Hhd1].
    destruct (namesAlong_shape _ _ _ Hx2) as [_ Hhd2].
    assert (Hnames : Node.name c1 = Node.name c2) by congruence.
    destruct Hu as [nm cs Hnodup Hcs]. simpl in Hx, Hx1.
    assert (Hr : r1 = r2).
    { apply (proj1 (NoDup_nth_error (map Node.name cs)) Hnodup).
      - rewrite length_map. apply nth_error_Some. congruence.
      - rewrite !nth_error_map, Hx, Hx1. simpl. congruence. }
    subst r2. assert (c2 = c1) by congruence. subst c2.
    f_equal. apply (IH c1 rows2 ns1); try assumption.
    rewrite Forall_forall in Hcs. apply Hcs. eapply nth_error_In. exact Hx.
Qed.

Lemma join_cons (sep a : string) (l : list string) :
  l <> [] -> QString.join sep (a :: l) = (a ++ sep ++ QString.join sep l)%string.
Proof. destruct l; [congruence | reflexivity]. Qed.

(** The names of a node other than the root: the root's name, then at
    least one more. *)
Lemma namesAlong_below (t : Node.t) (p : Node.ptr) (ns : list string) :
  p <> [] ->
  namesAlong t (rev p) = Some ns ->
  exists q, q <> [] /\ ns = Node.name t :: q.
Proof.
  intros Hp Hns. destruct (namesAlong_shape _ _ _ Hns) as [Hlen Hhd].
  rewrite length_rev in Hlen.
  destruct ns as [| nm q]; [discriminate |].
  injection Hhd as ->. exists q. split; [| reflexivity].
  destruct p; [congruence |]. destruct q; [discriminate | discriminate].
Qed.

(** In the tree built from a fresh root, the names below the root of a
    node are the first parts of one of the paths. *)
Lemma tree_item_under_entry (paths : list string) (workdir : string)
      (t : Node.t) (p : Node.ptr) (q : list string) :
  createDiffTreeLoop paths (Node.mk workdir []) = Some t ->
  p <> [] ->
  namesAlong t (rev p) = Some (workdir :: q) ->
  q <> [] /\
  Node.path t true p = Some (QString.join "/" q) /\
  exists path r, In path paths /\ QString.split "/" path = q ++ r.
Proof.
  intros Hloop Hp Hns.
  destruct (namesAlong_below _ _ _ Hp Hns) as (q' & Hq' & Hq).
  injection Hq as _ <-.
  split; [exact Hq' |]. split.
  - destruct (path_joins_names t p _ Hns) as [_ Hrel].
    destruct p; [congruence | exact Hrel].
  - destruct (createDiffTreeLoop_covered _ _ _ _ _ _ Hloop Hns)
      as [Hold | Hcov]; [| exact Hcov].
    apply namesAlong_leaf in Hold. destruct Hold as [Hrows _].
    apply (f_equal (@rev nat)) in Hrows. rewrite rev_involutive in Hrows.
    simpl in Hrows. congruence.
Qed.

Section Items.

Context {Idx : Type} {bridge : StagingBridge Idx}.
Variable statusChar : Z -> ascii.
Variable containsPath : string -> string -> bool.
Variable repoQuery : Role -> string -> string -> QVariant.

Lemma setDiff_valid_inv (m m' : @Model Idx) (diff : Diff Idx) (sigs : list Signal) :
  isValid diff = true ->
  setDiff m diff = Some (m', sigs) ->
  exists t,
    createDiffTreeLoop (names diff) (Node.mk (mRepo m) []) = Some t /\
    m' = mkModel (mRepo m) diff (Some t).
Proof.
  intros Hvalid H. rewrite setDiff_cases, Hvalid in H. inv_bind H.
  injection H as <- _. eauto.
Qed.

(** X5.  After [setDiff] with a valid diff, every path of the diff has an
    item in the tree, below the root: its [EditRole] data is the path, its
    [DisplayRole] data is the last part of the path and its [ToolTipRole]
    data is the path after the working directory and a "/". *)
Theorem entry_has_item (m m' : @Model Idx) (diff : Diff Idx)
        (sigs : list Signal) (path : string) :
  isValid diff = true ->
  setDiff m diff = Some (m', sigs) ->
  In path (names diff) ->
  exists p,
    p <> [] /\
    data statusChar containsPath repoQuery m' (Some p) EditRole =
      Some (QStr path) /\
    data statusChar containsPath repoQuery m' (Some p) DisplayRole =
      Some (QStr (last (QString.split "/" path) "")) /\
    data statusChar containsPath repoQuery m' (Some p) ToolTipRole =
      Some (QStr (mRepo m ++ "/" ++ path)).
Proof.
  intros Hvalid Hset Hin.
  destruct (setDiff_valid_inv _ _ _ _ Hvalid Hset) as (t & Hloop & ->).
  destruct (createDiffTreeLoop_entries _ _ _ _ Hloop Hin) as (rows & Hrows & Hns).
  simpl in Hns.
  exists (rev rows).
  assert (Hp : rev rows <> []).
  { intros Hnil. apply (f_equal (@rev nat)) in Hnil.
    rewrite rev_involutive in Hnil. simpl in Hnil. congruence. }
  rewrite <- (rev_involutive rows) in Hns.
  destruct (path_joins_names t (rev rows) _ Hns) as [Hfull Hrel].
  pose proof (split_not_nil "/" path) as Hparts.
  assert (Erel : Node.path t true (rev rows) = Some path).
  { destruct (rev rows); [congruence |].
    rewrite Hrel. simpl tl. rewrite (join_split "/" path). reflexivity. }
  assert (Efull : Node.path t false (rev rows) = Some (mRepo m ++ "/" ++ path)%string).
  { rewrite Hfull, join_cons by exact Hparts.
    rewrite (join_split "/" path). reflexivity. }
  destruct (proj1 (namesAlong_descend _ t) (ex_intro _ _ Hns)) as [n Hn].
  assert (Ename : Node.name n = last (QString.split "/" path) "").
  { rewrite <- (namesAlong_last _ _ _ _ Hns Hn).
    destruct (QString.split "/" path); [congruence | reflexivity]. }
  split; [exact Hp |]. unfold data, at_ptr. cbn [mRoot bind].
  rewrite Erel, Efull. unfold Node.deref. rewrite Hn. cbn [bind].
  rewrite Ename. repeat split.
Qed.

(** X6.  After [setDiff] with a valid diff, the relative path of every
    item below the root begins a path of the diff and ends where a segment
    of that path ends. *)
Theorem item_under_entry (m m' : @Model Idx) (diff : Diff Idx)
        (sigs : list Signal) (root n : Node.t) (p : Node.ptr) :
  isValid diff = true ->
  setDiff m diff = Some (m', sigs) ->
  mRoot m' = Some root ->
  p <> [] ->
  Node.deref root p = Some n ->
  exists rel path,
    Node.path root true p = Some rel /\
    In path (names diff) /\
    segmentPrefix path rel = true.
Proof.
  intros Hvalid Hset Hroot Hp Hn.
  destruct (setDiff_valid_inv _ _ _ _ Hvalid Hset) as (t & Hloop & ->).
  injection Hroot as <-.
  destruct (proj2 (namesAlong_descend (rev p) t) (ex_intro _ n Hn)) as [ns Hns].
  destruct (namesAlong_below _ _ _ Hp Hns) as (q & _ & ->).
  rewrite (createDiffTreeLoop_name _ _ _ Hloop) in Hns. simpl in Hns.
  destruct (tree_item_under_entry _ _ _ _ _ Hloop Hp Hns)
    as (Hq & Hrel & path & r & Hin & Hsplit).
  exists (QString.join "/" q), path. repeat split; try assumption.
  rewrite <- (join_split "/" path) at 1. rewrite Hsplit.
  apply segmentPrefix_join, Hq.
Qed.

(** X7.  After [setDiff] with a valid status diff, the inclusion state of
    every item below the root is determined: the query returns a check
    state, never the invalid variant. *)
Theorem item_check_state_determined (m m' : @Model Idx) (diff : Diff Idx)
        (sigs : list Signal) (root n : Node.t) (p : Node.ptr) :
  isValid diff = true ->
  isStatusDiff diff = true ->
  setDiff m diff = Some (m', sigs) ->
  mRoot m' = Some root ->
  p <> [] ->
  Node.deref root p = Some n ->
  exists c,
    data statusChar containsPath repoQuery m' (Some p) CheckStateRole =
      Some (QCheck c).
Proof.
  intros Hvalid Hstatus Hset Hroot Hp Hn.
  destruct (setDiff_valid_inv _ _ _ _ Hvalid Hset) as (t & Hloop & ->).
  injection Hroot as <-.
  destruct (proj2 (namesAlong_descend (rev p) t) (ex_intro _ n Hn)) as [ns Hns].
  destruct (namesAlong_below _ _ _ Hp Hns) as (q & _ & ->).
  rewrite (createDiffTreeLoop_name _ _ _ Hloop) in Hns. simpl in Hns.
  destruct (tree_item_under_entry _ _ _ _ _ Hloop Hp Hns)
    as (Hq & Hrel & path & r & Hin & Hsplit).
  unfold data. simpl. rewrite Hvalid, Hstatus, Hrel. simpl.
  rewrite checkState_triState.
  assert (Hmatch : In path (startingWith diff (QString.join "/" q))).
  { unfold startingWith. apply filter_In. split; [exact Hin |].
    apply segmentPrefix_startsWith.
    rewrite <- (join_split "/" path) at 1. rewrite Hsplit.
    apply segmentPrefix_join, Hq. }
  destruct (startingWith diff (QString.join "/" q)); [contradiction | eauto].
Qed.

End Items.

Lemma rev_inj {A : Type} (l1 l2 : list A) : rev l1 = rev l2 -> l1 = l2.
Proof.
  intros H. apply (f_equal (@rev A)) in H.
  rewrite !rev_involutive in H. exact H.
Qed.

(** In the tree built from a fresh root, nodes below the root with the
    same relative path are the same node. *)
Lemma tree_relative_path_inj (paths : list string) (workdir : string)
      (t : Node.t) (p q : Node.ptr) (s : string) :
  createDiffTreeLoop paths (Node.mk workdir []) = Some t ->
  p <> [] -> q <> [] ->
  Node.path t true p = Some s ->
  Node.path t true q = Some s ->
  p = q.
Proof.
  intros Hloop Hp Hq Hsp Hsq.
  pose proof (createDiffTreeLoop_name _ _ _ Hloop) as Hname. simpl in Hname.
  assert (Hnames : forall p', p' <> [] -> Node.path t true p' = Some s ->
            namesAlong t (rev p') = Some (workdir :: QString.split "/" s)).
  { intros p' Hp' Hs.
    destruct (path_deref _ _ _ _ Hs) as [n Hn].
    destruct (proj2 (namesAlong_descend (rev p') t) (ex_intro _ n Hn)) as [ns Hns].
    destruct (namesAlong_below _ _ _ Hp' Hns) as (q' & _ & ->).
    rewrite Hname in Hns.
    destruct (tree_item_under_entry _ _ _ _ _ Hloop Hp' Hns)
      as (Hq' & Hrel & path & r & _ & Hsplit).
    rewrite Hs in Hrel. injection Hrel as ->.
    rewrite (split_join "/" q' Hq'); [exact Hns |].
    pose proof (split_no_sep "/" path) as Hfree.
    rewrite Hsplit in Hfree. apply Forall_app in Hfree. apply Hfree. }
  apply rev_inj.
  apply (namesAlong_inj _ t _ (workdir :: QString.split "/" s)).
  - apply (Built_uniqueSiblings workdir).
    apply (createDiffTreeLoop_Built workdir paths _ _ (Built_root workdir) Hloop).
  - apply Hnames; assumption.
  - apply Hnames; assumption.
Qed.

Section Reachability.

Context {Idx : Type} {bridge : StagingBridge Idx}.
Variable statusChar : Z -> ascii.
Variable containsPath : string -> string -> bool.
Variable repoQuery : Role -> string -> string -> QVariant.

(** X8.  After [setDiff] with a valid diff, the [EditRole] data tells the
    items below the root apart: two indexes with the same relative path
    are the same index. *)
Theorem edit_role_identifies_item (m m' : @Model Idx) (diff : Diff Idx)
        (sigs : list Signal) (p q : Node.ptr) (v : QVariant) :
  isValid diff = true ->
  setDiff m diff = Some (m', sigs) ->
  p <> [] -> q <> [] ->
  data statusChar containsPath repoQuery m' (Some p) EditRole = Some v ->
  data statusChar containsPath repoQuery m' (Some q) EditRole = Some v ->
  p = q.
Proof.
  intros Hvalid Hset Hp Hq Hdp Hdq.
  destruct (setDiff_valid_inv _ _ _ _ Hvalid Hset) as (t & Hloop & ->).
  unfold data in Hdp, Hdq. cbn [mRoot bind] in Hdp, Hdq.
  inv_bind Hdp. inv_bind Hdq. injection Hdp as <-. injection Hdq as Heq.
  subst x0.
  exact (tree_relative_path_inj _ _ _ _ _ _ Hloop Hp Hq Hx Hx0).
Qed.

(** What [setData] leaves of the model: all but the index of the diff, and
    the index too when it is not a toggle or leaves the index alone. *)
Lemma setData_model (m m' : @Model Idx) (idx : QModelIndex) (value : Z)
      (role : Role) (ignoreIndexChanges : bool) (sigs : list Signal) (ok : bool) :
  setData m idx value role ignoreIndexChanges = Some (m', sigs, ok) ->
  exists ix,
    m' = mkModel (mRepo m)
           (mkDiff (isValid (mDiff m)) (isStatusDiff (mDiff m))
                   (entries (mDiff m)) ix)
           (mRoot m) /\
    (role <> CheckStateRole \/ ignoreIndexChanges = true -> ix = index_ (mDiff m)).
Proof.
  intros H.
  assert (Hm : mkModel (mRepo m)
                 (mkDiff (isValid (mDiff m)) (isStatusDiff (mDiff m))
                         (entries (mDiff m)) (index_ (mDiff m))) (mRoot m) = m)
    by (destruct m as [repo [valid status es ix] rt]; reflexivity).
  destruct role;
    try (injection H as <- _ _; exists (index_ (mDiff m)); split; [auto | auto]).
  destruct (setData_inv _ _ _ _ _ _ _ H)
    as (root & p & n & prefix & Hroot & Hnode & Hn & Hpath).
  rewrite (setData_toggle m root n idx p prefix value _ Hroot Hnode Hn Hpath) in H.
  injection H as <- _ _.
  destruct ignoreIndexChanges; simpl.
  - exists (index_ (mDiff m)). split; auto.
  - eexists. split; [reflexivity |]. intros [Hrole | Hign]; congruence.
Qed.

(** In every model a view can hold, a tree is there exactly with a valid
    diff, and it is a tree built for the working directory. *)
Lemma Reachable_tree (m : @Model Idx) :
  Reachable m ->
  (mRoot m = None <-> isValid (mDiff m) = false) /\
  (forall root, mRoot m = Some root -> Built (mRepo m) root).
Proof.
  induction 1 as [repo d Hd | m m' diff sigs _ IH H
                  | m m' idx value role ign sigs ok _ IH H].
  - simpl. split; [split; auto | discriminate].
  - rewrite setDiff_cases in H. destruct (isValid diff) eqn:Hd.
    + inv_bind H. injection H as <- _. simpl. split.
      * rewrite Hd. split; discriminate.
      * intros root [= <-].
        apply (createDiffTreeLoop_Built _ _ _ _ (Built_root _) Hx).
    + injection H as <- _. exact IH.
  - destruct (setData_model _ _ _ _ _ _ _ _ H) as (ix & -> & _). exact IH.
Qed.

(** X9.  In every model reached through [setDiff] and [setData], the
    [ToolTipRole] data of an item below the root is the working directory
    path, a "/" and the item's [EditRole] data. *)
Theorem tooltip_is_workdir_and_relative (m : @Model Idx) (p : Node.ptr)
        (rel : string) :
  Reachable m ->
  p <> [] ->
  data statusChar containsPath repoQuery m (Some p) EditRole = Some (QStr rel) ->
  data statusChar containsPath repoQuery m (Some p) ToolTipRole =
    Some (QStr (mRepo m ++ "/" ++ rel)).
Proof.
  intros Hreach Hp Hedit.
  unfold data in *. inv_bind Hedit. inv_bind Hedit. injection Hedit as ->.
  rename x into root. rewrite Hx. cbn [bind].
  destruct (Reachable_tree m Hreach) as [_ Hbuilt].
  pose proof (Built_name _ _ (Hbuilt root Hx)) as Hname.
  destruct (path_deref _ _ _ _ Hx0) as [n Hn].
  destruct (proj2 (namesAlong_descend (rev p) root) (ex_intro _ n Hn)) as [ns Hns].
  destruct (namesAlong_below _ _ _ Hp Hns) as (q & Hq & ->).
  destruct (path_joins_names root p _ Hns) as [Hfull Hrel].
  rewrite Hfull. cbn [bind]. rewrite join_cons by exact Hq.
  destruct p; [congruence |]. simpl tl in Hrel.
  rewrite Hx0 in Hrel. injection Hrel as ->. rewrite Hname. reflexivity.
Qed.

(** X10.  [index] returns a valid index only for column 0 and a row from 0
    up to, not including, [rowCount]; the [parent] of that index is the
    index it was made from, be it the invalid index (the rows under the
    root) or the index of an item below the root. *)
Theorem index_parent_round_trip (m : @Model Idx) (row column : Z)
        (idx : QModelIndex) (child : Node.ptr) :
  idx <> Some [] ->
  index m row column idx = Some (Some child) ->
  column = 0%Z /\
  (exists count,
     rowCount m idx = Some count /\ (0 <= row < Z.of_nat count)%Z) /\
  parent m (Some child) = Some idx.
Proof.
  intros Hidx H. unfold index in H. inv_bind H. rename x into count.
  unfold columnCount in H.
  destruct ((row <? 0)%Z || (row >=? Z.of_nat count)%Z ||
            (column <? 0)%Z || (column >=? 1)%Z) eqn:Hrange; [discriminate |].
  apply orb_false_iff in Hrange. destruct Hrange as [Hrange Hcol1].
  apply orb_false_iff in Hrange. destruct Hrange as [Hrange Hcol0].
  apply orb_false_iff in Hrange. destruct Hrange as [Hrow0 Hrow1].
  apply Z.ltb_ge in Hrow0, Hcol0.
  rewrite Z.geb_leb in Hrow1, Hcol1. apply Z.leb_gt in Hrow1, Hcol1.
  inv_bind H. inv_bind H. inv_bind H. injection H as <-.
  rename x into p, x0 into n, x1 into c.
  rename Hx0 into Hnode, Hx1 into Hn, Hx2 into Hc.
  split; [lia |]. split; [exists count; split; [exact Hx | lia] |].
  unfold at_ptr in Hn.
  destruct (mRoot m) as [root |] eqn:Hroot; [| discriminate]. cbn [bind] in Hn.
  unfold parent, at_ptr. cbn [node bind]. rewrite Hroot. cbn [bind].
  rewrite deref_cons, Hn. cbn [bind]. rewrite Hc. cbn [bind Node.parent].
  destruct idx as [p' |]; simpl in Hnode.
  - injection Hnode as <-.
    destruct p'; [exfalso; apply Hidx; reflexivity | reflexivity].
  - rewrite Hroot in Hnode. injection Hnode as <-. reflexivity.
Qed.


(** ** What a toggle changes and what it keeps *)

Lemma prefix_trans (a b c : string) :
  String.prefix a b = true -> String.prefix b c = true -> String.prefix a c = true.
Proof.
  revert b c. induction a as [| x a IH]; intros b c Hab Hbc.
  - destruct c; reflexivity.
  - destruct b as [| y b]; [discriminate |].
    destruct c as [| z c]; [discriminate |]. simpl in *.
    destruct (ascii_dec x y) as [-> |]; [| discriminate].
    destruct (ascii_dec y z) as [-> |]; [| discriminate].
    exact (IH _ _ Hab Hbc).
Qed.

(** The relative path of a node begins the relative path of every node
    below it. *)
Lemma path_below (root : Node.t) (p pre : Node.ptr) (sq : string) :
  p <> [] ->
  Node.path root true (pre ++ p) = Some sq ->
  exists sp,
    Node.path root true p = Some sp /\ QString.startsWith sq sp = true.
Proof.
  intros Hp. revert sq.
  induction pre as [| r pre IH]; intros sq Hsq.
  - exists sq. split; [exact Hsq | apply prefix_refl].
  - change ((r :: pre) ++ p) with (r :: (pre ++ p)) in Hsq.
    cbn [Node.path] in Hsq. inv_bind Hsq.
    destruct (pre ++ p) as [| r' up] eqn:Hup.
    { destruct pre; simpl in Hup; [congruence | discriminate]. }
    cbn [andb] in Hsq. inv_bind Hsq. injection Hsq as <-.
    destruct (IH _ Hx0) as (sp & Hsp & Hstart).
    exists sp. split; [exact Hsp |].
    unfold QString.startsWith in *.
    apply (prefix_trans _ _ _ Hstart), prefix_app.
Qed.

Lemma triState_all_staged (statuses : list StagedState) :
  statuses <> [] ->
  Forall (fun st => st = Staged) statuses ->
  triState statuses = Checked.
Proof.
  intros Hne Hall. unfold triState.
  assert (Hpartial : existsb isPartial statuses = false).
  { clear Hne. induction Hall as [| st l -> _ IH]; [reflexivity | exact IH]. }
  assert (Hfilter : filter isFullyStaged statuses = statuses).
  { clear Hne Hpartial.
    induction Hall as [| st l -> _ IH]; [reflexivity | simpl; rewrite IH; reflexivity]. }
  rewrite Hpartial, Hfilter, Nat.eqb_refl.
  destruct statuses; [congruence | reflexivity].
Qed.



(** X13.  [setData] changes nothing but the staging index: the tree and
    the working directory stay, every query of [data] that is answered
    from the tree and the entries of the diff (name, relative path, full
    path, status summary) answers as before, and so do [rowCount],
    [hasChildren] and [parent]; a call for another role, or one told to
    ignore index changes, leaves the model as it is. *)
Theorem setData_frame (m m' : @Model Idx) (idx : QModelIndex) (value : Z)
        (role : Role) (ignoreIndexChanges : bool) (sigs : list Signal) (ok : bool) :
  setData m idx value role ignoreIndexChanges = Some (m', sigs, ok) ->
  mRoot m' = mRoot m /\
  mRepo m' = mRepo m /\
  (forall idx' role',
     readsTreeAndDiff role' = true ->
     data statusChar containsPath repoQuery m' idx' role' =
       data statusChar containsPath repoQuery m idx' role') /\
  (forall idx',
     rowCount m' idx' = rowCount m idx' /\
     hasChildren m' idx' = hasChildren m idx' /\
     parent m' idx' = parent m idx') /\
  (role <> CheckStateRole \/ ignoreIndexChanges = true -> m' = m).
Proof.
  intros H. destruct (setData_model _ _ _ _ _ _ _ _ H) as (ix & -> & Hix).
  destruct m as [repo [valid status es ix0] rt]. simpl in *.
  repeat split.
  - intros [p |] role' Hrole; [| reflexivity].
    destruct role'; try reflexivity; discriminate Hrole.
  - intros Hcase. rewrite (Hix Hcase). reflexivity.
Qed.

(** X14.  With a staging index whose [setStaged] changes the status of no
    path outside the files it is given, a toggle of an item leaves the
    inclusion state of every item that has no matching entry among the
    matching entries of the toggled item. *)
Theorem toggle_keeps_other_check_states (m m' : @Model Idx) (root : Node.t)
        (p q : Node.ptr) (prefix prefix' : string) (value : Z)
        (ignoreIndexChanges : bool) (sigs : list Signal) (ok : bool) :
  (forall ix files staged f,
     ~ In f files ->
     isStaged (fst (setStaged ix files staged)) f = isStaged ix f) ->
  mRoot m = Some root ->
  Node.path root true p = Some prefix ->
  Node.path root true q = Some prefix' ->
  (forall f, In f (startingWith (mDiff m) prefix') ->
             ~ In f (startingWith (mDiff m) prefix)) ->
  setData m (Some p) value CheckStateRole ignoreIndexChanges =
    Some (m', sigs, ok) ->
  data statusChar containsPath repoQuery m' (Some q) CheckStateRole =
    data statusChar containsPath repoQuery m (Some q) CheckStateRole.
Proof.
  intros Hframe Hroot Hprefix Hprefix' Hapart Hset.
  destruct (path_deref _ _ _ _ Hprefix) as [n Hn].
  rewrite (setData_toggle m root n (Some p) p prefix value _
             Hroot eq_refl Hn Hprefix) in Hset.
  injection Hset as <- _ _.
  destruct ignoreIndexChanges; [reflexivity |].
  unfold data, callSetStaged. cbn [negb mDiff mRoot isValid isStatusDiff].
  destruct (negb (isValid (mDiff m)) || negb (isStatusDiff (mDiff m)));
    [reflexivity |].
  rewrite Hroot. cbn [bind]. rewrite Hprefix'. cbn [bind].
  rewrite !checkState_triState. cbn [index_].
  change (startingWith (mkDiff _ _ (entries (mDiff m)) _) prefix')
    with (startingWith (mDiff m) prefix').
  destruct (startingWith (mDiff m) prefix') as [| f fs] eqn:Hfiles;
    [reflexivity |].
  do 3 f_equal. apply map_ext_in. intros g Hg.
  apply Hframe, Hapart. exact Hg.
Qed.

End Reachability.

(** ** The further properties on the scenario *)

Lemma scenarioModel_Reachable : Reachable (bridge := tableBridge) scenarioModel.
Proof.
  apply Reachable_setDiff
    with (m := emptyModel) (diff := scenarioDiff)
         (sigs := [modelAboutToBeReset; modelReset]);
    [| reflexivity].
  apply Reachable_new. reflexivity.
Qed.

Lemma entry_has_item_witness :
  exists p,
    p <> [] /\
    data (bridge := tableBridge) lowByte segmentPrefix noQuery
         scenarioModel (Some p) EditRole = Some (QStr "src/b.txt") /\
    data (bridge := tableBridge) lowByte segmentPrefix noQuery
         scenarioModel (Some p) DisplayRole =
      Some (QStr (last (QString.split "/" "src/b.txt") "")) /\
    data (bridge := tableBridge) lowByte segmentPrefix noQuery
         scenarioModel (Some p) ToolTipRole =
      Some (QStr (mRepo emptyModel ++ "/" ++ "src/b.txt")).
Proof.
  apply (entry_has_item (bridge := tableBridge) lowByte segmentPrefix noQuery
           emptyModel scenarioModel scenarioDiff
           [modelAboutToBeReset; modelReset] "src/b.txt");
    [reflexivity | reflexivity | right; left; reflexivity].
Defined.

Lemma item_under_entry_witness :
  exists rel path,
    Node.path scenarioTree true [0] = Some rel /\
    In path (names scenarioDiff) /\
    segmentPrefix path rel = true.
Proof.
  apply (item_under_entry emptyModel scenarioModel scenarioDiff
           [modelAboutToBeReset; modelReset] scenarioTree
           (Node.mk "src" [Node.mk "a.txt" []; Node.mk "b.txt" []]) [0]);
    try reflexivity.
  discriminate.
Defined.

Lemma item_check_state_determined_witness :
  exists c,
    data (bridge := tableBridge) lowByte segmentPrefix noQuery
         scenarioModel (Some [0]) CheckStateRole = Some (QCheck c).
Proof.
  apply (item_check_state_determined (bridge := tableBridge)
           lowByte segmentPrefix noQuery
           emptyModel scenarioModel scenarioDiff
           [modelAboutToBeReset; modelReset] scenarioTree
           (Node.mk "src" [Node.mk "a.txt" []; Node.mk "b.txt" []]) [0]);
    try reflexivity.
  discriminate.
Defined.

Lemma edit_role_identifies_item_witness : [1; 0] = [1; 0].
Proof.
  apply (edit_role_identifies_item (bridge := tableBridge)
           lowByte segmentPrefix noQuery
           emptyModel scenarioModel scenarioDiff
           [modelAboutToBeReset; modelReset] [1; 0] [1; 0] (QStr "src/b.txt"));
    try reflexivity; discriminate.
Defined.

Lemma tooltip_is_workdir_and_relative_witness :
  data (bridge := tableBridge) lowByte segmentPrefix noQuery
       scenarioModel (Some [1; 0]) ToolTipRole = Some (QStr "/repo/src/b.txt").
Proof.
  apply (tooltip_is_workdir_and_relative (bridge := tableBridge)
           lowByte segmentPrefix noQuery scenarioModel [1; 0] "src/b.txt"
           scenarioModel_Reachable);
    [discriminate | reflexivity].
Defined.

Lemma index_parent_round_trip_witness :
  0%Z = 0%Z /\
  (exists count,
     rowCount scenarioModel (Some [0]) = Some count /\
     (0 <= 1 < Z.of_nat count)%Z) /\
  parent scenarioModel (Some [1; 0]) = Some (Some [0]).
Proof.
  apply (index_parent_round_trip scenarioModel 1 0 (Some [0]) [1; 0]);
    [discriminate | reflexivity].
Defined.



Lemma setData_frame_witness :
  data (bridge := tableBridge) lowByte segmentPrefix noQuery
       (mkModel "/repo"
          (mkDiff true true (entries scenarioDiff) [("src/a.txt", Staged)])
          (Some scenarioTree))
       (Some [0]) StatusRole =
  data (bridge := tableBridge) lowByte segmentPrefix noQuery
       scenarioModel (Some [0]) StatusRole.
Proof.
  apply (setData_frame (bridge := tableBridge) lowByte segmentPrefix noQuery
           scenarioModel _ (Some [0; 0]) 2 CheckStateRole false
           [dataChanged (Some [0]) (Some [0]) [CheckStateRole];
            dataChanged (Some [0; 0]) (Some [0; 0]) [CheckStateRole];
            checkStateChanged (Some [0; 0]) 2]
           true);
    reflexivity.
Defined.

(** The table keeps the state of every path it is not told about. *)
Lemma tableBridge_frame (ix : TableIndex) (files : list string) (staged : bool)
      (f : string) :
  ~ In f files ->
  isStaged (StagingBridge := tableBridge)
           (fst (setStaged (StagingBridge := tableBridge) ix files staged)) f =
    isStaged (StagingBridge := tableBridge) ix f.
Proof.
  simpl. induction files as [| a files IH]; simpl; intros Hf; [reflexivity |].
  destruct (String.eqb_spec a f) as [-> | _].
  - exfalso. apply Hf. left. reflexivity.
  - apply IH. intros Hin. apply Hf. right. exact Hin.
Qed.

Lemma toggle_keeps_other_check_states_witness :
  data (bridge := tableBridge) lowByte segmentPrefix noQuery
       (mkModel "/repo"
          (mkDiff true true (entries scenarioDiff) [("src/a.txt", Staged)])
          (Some scenarioTree))
       (Some [1]) CheckStateRole =
  data (bridge := tableBridge) lowByte segmentPrefix noQuery
       scenarioModel (Some [1]) CheckStateRole.
Proof.
  apply (toggle_keeps_other_check_states (bridge := tableBridge)
           lowByte segmentPrefix noQuery
           scenarioModel _ scenarioTree [0; 0] [1] "src/a.txt" "docs" 2 false
           [dataChanged (Some [0]) (Some [0]) [CheckStateRole];
            dataChanged (Some [0; 0]) (Some [0; 0]) [CheckStateRole];
            checkStateChanged (Some [0; 0]) 2]
           true tableBridge_frame);
    try reflexivity.
  intros f [<- | []] [Hin | []]. discriminate Hin.
Defined.

(** ** The order of the rows *)

Lemma existsb_names_miss (seg : string) (cs : list Node.t) :
  Forall (fun d => String.eqb (Node.name d) seg = false) cs ->
  existsb (fun d => String.eqb d seg) (map Node.name cs) = false.
Proof.
  induction 1 as [| c cs Hc _ IH]; simpl; [reflexivity |].
  rewrite Hc, IH. reflexivity.
Qed.

(** An insertion appends a child for its first part when no child has that
    name, and leaves the names of the children as they are otherwise. *)
Lemma addChildFrom_children_names (seg : string) (rest : list string)
      (this t' : Node.t) :
  Node.addChildFrom (seg :: rest) this = Some t' ->
  map Node.name (Node.children t') =
    if freshName (map Node.name (Node.children this)) seg
    then map Node.name (Node.children this) ++ [seg]
    else map Node.name (Node.children this).
Proof.
  intros Hadd. apply addChildFrom_cons_inv in Hadd. unfold freshName.
  destruct Hadd as [(pre & c & post & c' & Hcs & _ & Hc & Hc' & ->)
                   | (Hmiss & n' & Hn' & _ & ->)]; simpl.
  - rewrite Hcs, !map_app, existsb_app. simpl.
    rewrite Hc, (addChildFrom_name _ _ _ Hc'), Hc, String.eqb_refl.
    rewrite orb_true_r. reflexivity.
  - rewrite (existsb_names_miss _ _ Hmiss), map_app. simpl.
    rewrite Hn'. reflexivity.
Qed.

Lemma createDiffTreeLoop_children_names (paths : list string) :
  forall root t,
    createDiffTreeLoop paths root = Some t ->
    map Node.name (Node.children t) =
      map Node.name (Node.children root) ++
      filter (freshName (map Node.name (Node.children root)))
             (firstSeenNames (map firstPart paths)).
Proof.
  induction paths as [| path rest IH]; simpl; intros root t H.
  - injection H as <-. rewrite app_nil_r. reflexivity.
  - inv_bind H. rename x into root'. unfold Node.addChild in Hx. simpl in Hx.
    pose proof (split_not_nil "/" path) as Hparts.
    destruct (QString.split "/" path) as [| seg parts] eqn:Hsplit; [congruence |].
    assert (Hfirst : firstPart path = seg)
      by (unfold firstPart; rewrite Hsplit; reflexivity).
    rewrite (IH _ _ H), (addChildFrom_children_names _ _ _ _ Hx), Hfirst.
    set (N := map Node.name (Node.children root)).
    set (rows := firstSeenNames (map firstPart rest)).
    cbn [filter].
    destruct (freshName N seg) eqn:Hnew.
    + rewrite <- app_assoc. simpl. do 2 f_equal.
      rewrite filter_filter. apply filter_ext. intros d.
      unfold freshName. rewrite existsb_app. simpl.
      rewrite orb_false_r, negb_orb, (String.eqb_sym d). apply andb_comm.
    + f_equal. rewrite filter_filter. apply filter_ext. intros d.
      destruct (String.eqb_spec d seg) as [-> | _]; simpl.
      * exact Hnew.
      * reflexivity.
Qed.

Lemma filter_all {A : Type} (l : list A) : filter (fun _ => true) l = l.
Proof. induction l as [| x l IH]; simpl; [| rewrite IH]; reflexivity. Qed.

(** X15.  After [setDiff] with a valid diff, the rows under the root are
    the distinct first parts of the paths of the diff, in the order in
    which each is first listed: the rows are not sorted. *)
Theorem top_rows_in_first_seen_order {Idx : Type} (m m' : @Model Idx)
        (diff : Diff Idx) (sigs : list Signal) :
  isValid diff = true ->
  setDiff m diff = Some (m', sigs) ->
  exists root,
    mRoot m' = Some root /\
    map Node.name (Node.children root) =
      firstSeenNames (map firstPart (names diff)) /\
    rowCount m' None =
      Some (length (firstSeenNames (map firstPart (names diff)))).
Proof.
  intros Hvalid Hset. rewrite setDiff_cases, Hvalid in Hset.
  inv_bind Hset. injection Hset as <- _. rename x into t.
  exists t. split; [reflexivity |].
  pose proof (createDiffTreeLoop_children_names _ _ _ Hx) as Hnames.
  simpl in Hnames.
  rewrite (filter_ext _ (fun _ => true)), filter_all in Hnames
    by reflexivity.
  split; [exact Hnames |].
  unfold rowCount, at_ptr. simpl. rewrite Hvalid.
  rewrite <- Hnames, length_map. reflexivity.
Qed.

Lemma top_rows_in_first_seen_order_witness :
  exists root,
    mRoot scenarioModel = Some root /\
    map Node.name (Node.children root) =
      firstSeenNames (map firstPart (names scenarioDiff)) /\
    rowCount scenarioModel None =
      Some (length (firstSeenNames (map firstPart (names scenarioDiff)))).
Proof.
  apply (top_rows_in_first_seen_order emptyModel scenarioModel scenarioDiff
           [modelAboutToBeReset; modelReset]);
    reflexivity.
Defined.

(** ** A folder and the items below it *)

Lemma filter_keeps_all {A : Type} (f : A -> bool) (l : list A) :
  length (filter f l) = length l -> Forall (fun x => f x = true) l.
Proof.
  induction l as [| x l IH]; simpl; intros Hlen; [constructor |].
  destruct (f x) eqn:Hx.
  - simpl in Hlen. constructor; [exact Hx | apply IH; lia].
  - pose proof (filter_length_le f l). lia.
Qed.

Lemma triState_Checked_inv (statuses : list StagedState) :
  triState statuses = Checked ->
  statuses <> [] /\ Forall (fun st => st = Staged) statuses.
Proof.
  unfold triState.
  destruct (existsb isPartial statuses); [discriminate |].
  destruct (Nat.eqb_spec (length (filter isFullyStaged statuses)) 0) as [| Hpos];
    [discriminate |].
  destruct (Nat.eqb_spec (length (filter isFullyStaged statuses)) (length statuses))
    as [Hall |]; [| discriminate].
  intros _. split.
  - intros ->. simpl in Hpos. congruence.
  - apply filter_keeps_all in Hall.
    eapply Forall_impl; [| exact Hall].
    intros st Hst. destruct st; try discriminate. reflexivity.
Qed.

Lemma triState_Unchecked_iff (statuses : list StagedState) :
  triState statuses = Unchecked <->
  Forall (fun st => isPartial st = false /\ isFullyStaged st = false) statuses.
Proof.
  unfold triState. split.
  - destruct (existsb isPartial statuses) eqn:Hpartial; [discriminate |].
    destruct (Nat.eqb_spec (length (filter isFullyStaged statuses)) 0) as [Hzero |].
    + intros _. apply Forall_forall. intros st Hin. split.
      * destruct (isPartial st) eqn:Hst; [| reflexivity].
        assert (existsb isPartial statuses = true)
          by (apply existsb_exists; eauto).
        congruence.
      * destruct (isFullyStaged st) eqn:Hst; [| reflexivity].
        assert (Hf : In st (filter isFullyStaged statuses))
          by (apply filter_In; auto).
        destruct (filter isFullyStaged statuses); [contradiction | discriminate].
    + destruct (Nat.eqb _ _); discriminate.
  - intros Hall.
    assert (Hpartial : existsb isPartial statuses = false).
    { induction Hall as [| st l [Hp _] _ IH]; simpl; [reflexivity |].
      rewrite Hp. exact IH. }
    assert (Hfilter : filter isFullyStaged statuses = []).
    { clear Hpartial. induction Hall as [| st l [_ Hs] _ IH]; simpl; [reflexivity |].
      rewrite Hs. exact IH. }
    rewrite Hpartial, Hfilter. reflexivity.
Qed.

Section Folders.

Context {Idx : Type} {bridge : StagingBridge Idx}.
Variable statusChar : Z -> ascii.
Variable containsPath : string -> string -> bool.
Variable repoQuery : Role -> string -> string -> QVariant.

(** The entries collected for a node are among those collected for a
    node above it. *)
Lemma startingWith_below (d : Diff Idx) (sp sq f : string) :
  QString.startsWith sq sp = true ->
  In f (startingWith d sq) -> In f (startingWith d sp).
Proof.
  unfold startingWith, QString.startsWith. intros Hstart Hf.
  apply filter_In in Hf. destruct Hf as [Hin Hf].
  apply filter_In. split; [exact Hin | exact (prefix_trans _ _ _ Hstart Hf)].
Qed.

(** X16.  The aggregate is consistent downward: when an item below the
    root reads [Checked], every item below it that has matching entries
    reads [Checked], and when it reads [Unchecked], every such item reads
    [Unchecked]. *)
Theorem folder_state_holds_below (m : @Model Idx) (root : Node.t)
        (p pre : Node.ptr) (prefix' : string) (c : CheckState) :
  mRoot m = Some root ->
  p <> [] ->
  c <> PartiallyChecked ->
  data statusChar containsPath repoQuery m (Some p) CheckStateRole =
    Some (QCheck c) ->
  Node.path root true (pre ++ p) = Some prefix' ->
  startingWith (mDiff m) prefix' <> [] ->
  data statusChar containsPath repoQuery m (Some (pre ++ p)) CheckStateRole =
    Some (QCheck c).
Proof.
  intros Hroot Hp Hc Hdata Hprefix' Hsome.
  unfold data in *.
  destruct (negb (isValid (mDiff m)) || negb (isStatusDiff (mDiff m)));
    [discriminate |].
  rewrite Hroot in *. cbn [bind] in *. rewrite Hprefix'. cbn [bind].
  inv_bind Hdata. rename x into prefix.
  destruct (path_below root p pre prefix' Hp Hprefix') as (sp & Hsp & Hstart).
  rewrite Hx in Hsp. injection Hsp as <-.
  rewrite checkState_triState in *.
  pose proof (startingWith_below (mDiff m) prefix prefix') as Hsub.
  set (ix := index_ (mDiff m)) in *.
  destruct (startingWith (mDiff m) prefix) as [| f fs] eqn:Hfiles;
    [discriminate |].
  destruct (startingWith (mDiff m) prefix') as [| g gs] eqn:Hfiles';
    [congruence |].
  injection Hdata as Hstate. do 2 f_equal.
  assert (Hall : forall P : StagedState -> Prop,
            Forall P (map (isStaged ix) (f :: fs)) ->
            Forall P (map (isStaged ix) (g :: gs))).
  { intros P HP. rewrite Forall_forall in *. intros st Hst.
    apply in_map_iff in Hst. destruct Hst as (h & <- & Hh).
    apply HP, in_map, (Hsub h Hstart Hh). }
  destruct c; [| congruence |].
  - apply triState_Unchecked_iff, Hall, triState_Unchecked_iff, Hstate.
  - apply triState_Checked_inv in Hstate. destruct Hstate as [_ Hstaged].
    apply triState_all_staged; [discriminate | apply Hall, Hstaged].
Qed.

End Folders.

Lemma folder_state_holds_below_witness :
  data (bridge := tableBridge) lowByte segmentPrefix noQuery
       scenarioModel (Some ([1] ++ [0])) CheckStateRole =
    Some (QCheck Unchecked).
Proof.
  apply (folder_state_holds_below (bridge := tableBridge)
           lowByte segmentPrefix noQuery
           scenarioModel scenarioTree [0] [1] "src/b.txt" Unchecked);
    try reflexivity; discriminate.
Defined.
